(** * DepGraphModelSource: the resolution and view controller

    A shallow embedding of [src/depgraph-navigator/src/browser/graph/model-source.ts].

    The controller works on objects it shares with the graph generator, the
    graph filter and the layout engine: the element records live in a heap
    of objects, [model.children] and the index hold references into that
    heap, and a node handed to [resolveNodes] is such a reference, so that
    [node.error = ...] is seen by a later index lookup.

    Every call the controller makes to a collaborator (action dispatcher,
    generator, filter, layout engine, logger, load indicator, model
    submission) is recorded, in order, in a trace.  The collaborators
    themselves are not part of the file under study; they are variables of
    the section [Controller]. *)

From Stdlib Require Import ZArith.
From stdpp Require Import gmap strings list fin_maps.

Open Scope string_scope.
Open Scope list_scope.
Open Scope nat_scope.

(** ** Data model *)

Record Point := mkPoint { px : Z; py : Z }.
Record Dimension := mkDimension { width : Z; height : Z }.
Record Bounds := mkBounds { bx : Z; by_ : Z; bwidth : Z; bheight : Z }.

(** One record for the element schemas: [SModelElementSchema] with the
    optional fields of [DependencyGraphNodeSchema] and of the edge schema.
    A flag that is [undefined] in the source reads as [false] under [!]
    and [!!], and is [false] here. *)
Record Element := mkElement {
  id : string;
  type : string;
  hidden : bool;
  name : string;
  version : option string;
  resolved : bool;
  error : option string;
  sourceId : option string;
  targetId : option string;
  position : option Point;
  size_ : option Dimension;
  alignment : option Point
}.

Definition set_hidden (b : bool) (e : Element) : Element :=
  mkElement (id e) (type e) b (name e) (version e) (resolved e) (error e)
            (sourceId e) (targetId e) (position e) (size_ e) (alignment e).

Definition set_resolved (b : bool) (e : Element) : Element :=
  mkElement (id e) (type e) (hidden e) (name e) (version e) b (error e)
            (sourceId e) (targetId e) (position e) (size_ e) (alignment e).

Definition set_error (s : option string) (e : Element) : Element :=
  mkElement (id e) (type e) (hidden e) (name e) (version e) (resolved e) s
            (sourceId e) (targetId e) (position e) (size_ e) (alignment e).

Definition set_geometry (p : option Point) (d : option Dimension) (e : Element) : Element :=
  mkElement (id e) (type e) (hidden e) (name e) (version e) (resolved e) (error e)
            (sourceId e) (targetId e) p d (alignment e).

Definition set_alignment (a : option Point) (e : Element) : Element :=
  mkElement (id e) (type e) (hidden e) (name e) (version e) (resolved e) (error e)
            (sourceId e) (targetId e) (position e) (size_ e) a.

(** Modelled from the spec: [isNode] is imported from [./graph-model], which
    is not among the sources; the spec's data model has a [type]
    discriminator, and [handleSelect] tests [element.type === 'node']. *)
Definition isNode (e : Element) : bool := String.eqb (type e) "node".

(** References to element objects. *)
Abbreviation loc := nat (only parsing).

(** The graph shared with the generator: the objects, [graph.children] and
    the id index.  After [start()] the controller's [model] is this very
    graph object ([setModel] keeps the reference), so [this.model.children]
    and [this.graphGenerator.graph.children] are one list. *)
Record Graph := mkGraph {
  heap : gmap nat Element;
  children : list nat;
  index : gmap string nat
}.

Definition set_heap (h : gmap nat Element) (g : Graph) : Graph :=
  mkGraph h (children g) (index g).
Definition set_children (c : list nat) (g : Graph) : Graph :=
  mkGraph (heap g) c (index g).
Definition set_index (i : gmap string nat) (g : Graph) : Graph :=
  mkGraph (heap g) (children g) i.

(** [index.getById(id)]: the element object, or [undefined]. *)
Definition getById (g : Graph) (i : string) : option Element :=
  index g !! i ≫= λ l, heap g !! l.

(** [index.all()] *)
Definition all (g : Graph) : list Element :=
  omap (λ kl, heap g !! kl.2) (map_to_list (index g)).

(** [index.remove(element)] deletes the entry stored under the element's id.
    The index of the rendering library also deletes the entries of the
    element's nested children (a node's labels); the element records here
    have no nested children, so only what [remove] is shown to delete, not
    what it is shown to keep, carries over to the code. *)
Definition index_remove (e : Element) (g : Graph) : Graph :=
  set_index (delete (id e) (index g)) g.

(** Field reads through a reference. *)
Definition deref {A} (f : Element → A) (d : A) (g : Graph) (l : loc) : A :=
  from_option f d (heap g !! l).

Definition idOf : Graph → loc → string := deref id "".
Definition hiddenOf : Graph → loc → bool := deref hidden false.
Definition resolvedOf : Graph → loc → bool := deref resolved false.
Definition errorOf : Graph → loc → option string := deref error None.

(** ** View actions and the trace of calls *)

Inductive Action :=
  | SelectAction (selectedElementsIDs : list string)
  | FitToScreenAction (elementIds : list string) (padding maxZoom : Z) (animate : bool)
  | SelectAllAction (select : bool).

(** What a call of [graphGenerator.resolveNode(node)] does before it
    returns: it raises (the string is the [toString()] of what was thrown),
    or it hands back a pending promise.  What is thrown is taken to have a
    [toString()]: a thrown [null] or [undefined], on which the [catch]
    clause itself would fail, is outside this model. *)
Inductive Invoked :=
  | Throws (error : string)
  | Pending.

(** How a promise returned by [resolveNode] settles. *)
Inductive Settled :=
  | Fulfilled (result : list nat)
  | Rejected (reason : string).

Inductive Event :=
  | Dispatch (a : Action)                  (* actionDispatcher.dispatch(a) *)
  | UpdateModel                            (* this.updateModel() *)
  | DoSubmitModel (update : bool)          (* this.doSubmitModel(root, update) *)
  | LoadIndicator (loadStatus : bool)      (* this.loadIndicator(loadStatus) *)
  | SetFilter (text : string)              (* graphFilter.setFilter(text) *)
  | Refresh                                (* graphFilter.refresh(graph, index) *)
  | SetModel                               (* this.setModel(graphGenerator.graph) *)
  | GenerateNode (name : string) (version : option string)
  | ResolveNode (node : nat) (r : Invoked) (* graphGenerator.resolveNode(node) *)
  | PromiseAll (promises : list nat)       (* Promise.all(promises) *)
  | Settle (node : nat) (r : Settled)      (* the promise of that call settles *)
  | Layout                                 (* elk.layout(root, index) *)
  | LogError (msg : string)                (* logger.error(this, msg) *)
  | Suspend.                               (* an await: control is given up *)

Record World := mkWorld {
  graph : Graph;
  filterText : string;
  trace : list Event
}.

(** ** The controller's monad: state, trace, rejection *)

Inductive Res (A : Type) :=
  | Done (a : A)
  | Reject (reason : string)
  | OutOfFuel.
Arguments Done {A} a.
Arguments Reject {A} reason.
Arguments OutOfFuel {A}.

Definition M (A : Type) : Type := World → Res A * World.

Definition ret {A} (a : A) : M A := λ w, (Done a, w).

Definition bind {A B} (k : A → M B) (m : M A) : M B :=
  λ w, match m w with
       | (Done a, w') => k a w'
       | (Reject r, w') => (Reject r, w')
       | (OutOfFuel, w') => (OutOfFuel, w')
       end.

#[global] Instance M_ret : MRet M := @ret.
#[global] Instance M_bind : MBind M := @bind.

Definition get : M World := λ w, (Done w, w).
Definition emit (e : Event) : M unit :=
  λ w, (Done tt, mkWorld (graph w) (filterText w) (trace w ++ [e])).
Definition putGraph (g : Graph) : M unit :=
  λ w, (Done tt, mkWorld g (filterText w) (trace w)).
Definition putFilterText (t : string) : M unit :=
  λ w, (Done tt, mkWorld (graph w) t (trace w)).
Definition throw {A} (r : string) : M A := λ w, (Reject r, w).
Definition when (b : bool) (m : M unit) : M unit := if b then m else ret tt.

Definition dispatch (a : Action) : M unit := emit (Dispatch a).
(** [this.updateModel()] of the base class, whose promise is taken to fulfil. *)
Definition updateModel : M unit := emit UpdateModel.
Definition doSubmitModel (update : bool) : M unit := emit (DoSubmitModel update).
Definition await : M unit := emit Suspend.

(** ** Selection and centering *)

(** The callback of both filters:
    [isNode(element) && !element.hidden] on [index.getById(id)]. *)
Definition visibleNode (g : Graph) (i : string) : bool :=
  match getById g i with
  | Some element => isNode element && negb (hidden element)
  | None => false
  end.

Definition select (elementIds : list string) : M unit :=
  if 0 <? length elementIds then
    w ← get;
    dispatch (SelectAction (List.filter (visibleNode (graph w)) elementIds))
  else ret tt.

Definition center (elementIds : list string) : M unit :=
  if 0 <? length elementIds then
    w ← get;
    dispatch (FitToScreenAction (List.filter (visibleNode (graph w)) elementIds) 20 1 true)
  else ret tt.

(** ** The collaborators *)

(** The graph generator, as the controller uses it.  [resolveNode] is the
    synchronous part of the call, [settleNode] the later settlement of the
    promise it returned; both may change the shared graph. *)
Record Generator := mkGenerator {
  generateNode : string → option string → Graph → Graph * nat;
  resolveNode : nat → Graph → Graph * Invoked;
  settleNode : nat → Graph → Graph * Settled
}.

(** [ComputedBoundsAction] *)
Record ElementAndBounds := mkElementAndBounds {
  b_elementId : string; newBounds : Bounds }.
Record ElementAndAlignment := mkElementAndAlignment {
  a_elementId : string; newAlignment : Point }.
Record ComputedBoundsAction := mkComputedBoundsAction {
  bounds : list ElementAndBounds;
  alignments : option (list ElementAndAlignment)
}.

(** [applyBounds] and [applyAlignment] of the base class [LocalModelSource]
    write the geometry into the element object. *)
Definition applyBounds (l : loc) (b : Bounds) (g : Graph) : Graph :=
  set_heap (alter (set_geometry (Some (mkPoint (bx b) (by_ b)))
                                (Some (mkDimension (bwidth b) (bheight b)))) l (heap g)) g.

Definition applyAlignment (l : loc) (a : Point) (g : Graph) : Graph :=
  set_heap (alter (set_alignment (Some (mkPoint (px a) (py a)))) l (heap g)) g.

(** The element reference stored under an id, when the object exists. *)
Definition refById (g : Graph) (i : string) : option nat :=
  index g !! i ≫= λ l, heap g !! l ≫= λ _, Some l.

(** The promise chosen to settle next: position [k] of the pending ones
    (the first one when [k] is out of range), and the others. *)
Definition pick (k : nat) (promises : list nat) : option (nat * list nat) :=
  match promises !! k with
  | Some p => Some (p, delete k promises)
  | None => match promises with
            | p :: rest => Some (p, rest)
            | [] => None
            end
  end.

(** [model.children.filter(c => isNode(c) && !c.hidden).map(c => c.id)] *)
Definition visibleChildIds (g : Graph) : list string :=
  map id (List.filter (λ c, isNode c && negb (hidden c))
                      (omap (λ l, heap g !! l) (children g))).

(** [model.children.filter(c => isNode(c) && !c.resolved)] *)
Definition unresolvedChildren (g : Graph) : list nat :=
  List.filter (deref (λ c, isNode c && negb (resolved c)) false g) (children g).

(** The two loops of [handleComputedBounds]: ids that are no longer in the
    index are skipped. *)
Definition applyComputed (action : ComputedBoundsAction) (g : Graph) : Graph :=
  let g1 := foldl (λ g b, match refById g (b_elementId b) with
                          | Some element => applyBounds element (newBounds b) g
                          | None => g
                          end) g (bounds action) in
  match alignments action with
  | Some al =>
      foldl (λ g a, match refById g (a_elementId a) with
                    | Some element => applyAlignment element (newAlignment a) g
                    | None => g
                    end) g1 al
  | None => g1
  end.

Section Controller.

(** The injected graph generator. *)
Variable gen : Generator.

(** Modelled from the spec: the graph filter ([./graph-filter]) is not among
    the sources.  [refresh(model, index)] is synchronous and recomputes
    [hidden] in place from the filter text and the graph; [hide] is that
    decision for one element of the model. *)
Variable hide : string → Graph → nat → bool.

(** The order in which pending promises settle is not the controller's:
    given the history so far and the pending promises, [sched] names the
    one that settles next. *)
Variable sched : World → list nat → nat.

(** Whether the optional [loadIndicator] hook is set. *)
Variable hasLoadIndicator : bool.

(** [elk.layout(root, index)]: the geometry it applies, and [None] when
    its promise fulfils or the [toString()] of the reason when it rejects. *)
Variable elkLayout : Graph → Graph * option string.

Definition setFilter (text : string) : M unit :=
  emit (SetFilter text);; putFilterText text.

Definition refresh_graph (text : string) (g : Graph) : Graph :=
  set_heap (map_imap (λ l e, Some (if bool_decide (l ∈ children g)
                                    then set_hidden (hide text g l) e
                                    else e)) (heap g)) g.

Definition refresh : M unit :=
  w ← get;
  emit Refresh;; putGraph (refresh_graph (filterText w) (graph w)).

Definition callGenerateNode (name : string) (version : option string) : M nat :=
  w ← get;
  emit (GenerateNode name version);;
  let '(g, node) := generateNode gen name version (graph w) in
  putGraph g;; mret node.

Definition callResolveNode (node : nat) : M Invoked :=
  w ← get;
  let '(g, r) := resolveNode gen node (graph w) in
  putGraph g;; emit (ResolveNode node r);; mret r.

(** The promise of [node] settles. *)
Definition settle (node : nat) : M Settled :=
  w ← get;
  let '(g, r) := settleNode gen node (graph w) in
  putGraph g;; emit (Settle node r);; mret r.

(** [node.error = error.toString()] *)
Definition setError (node : nat) (err : string) : M unit :=
  w ← get;
  putGraph (set_heap (alter (set_error (Some err)) node (heap (graph w))) (graph w)).

Definition start : M unit := emit SetModel.

Definition filter (text : string) : M unit :=
  setFilter text;;
  refresh;;
  dispatch (SelectAllAction false);;
  w ← get;
  let center_ids := visibleChildIds (graph w) in
  updateModel;; await;;
  center center_ids.

Definition createNode (name : string) (version : option string) : M unit :=
  w ← get;
  let isNew := match getById (graph w) name with None => true | Some _ => false end in
  node ← callGenerateNode name version;
  if isNew then
    updateModel;; await;;
    w' ← get;
    select [idOf (graph w') node]
  else mret tt.

(** [await Promise.all(promises)] after control was given up: the promises
    settle one by one in the scheduler's order; the first rejection
    rejects the whole; the results are returned in settlement order.
    What the remaining promises do after a rejection happens behind the
    back of the operation, which has ended, and is not part of its run. *)
Fixpoint settleAll (fuel : nat) (promises : list nat) : M (list nat) :=
  match promises, fuel with
  | [], _ => mret []
  | _, O => λ w, (OutOfFuel, w)
  | _, S fuel' =>
      w ← get;
      match pick (sched w promises) promises with
      | None => mret []
      | Some (p, others) =>
          r ← settle p;
          match r with
          | Fulfilled result =>
              rest ← settleAll fuel' others;
              mret (result ++ rest)
          | Rejected reason => throw reason
          end
      end
  end.

Definition awaitAll (promises : list nat) : M (list nat) :=
  emit (PromiseAll promises);; await;;
  settleAll (length promises) promises.

(** The guarded call of both loops:
    [try { promises.push(resolveNode(node)) } catch (error) { node.error = error.toString() }].
    The result tells whether a promise was pushed. *)
Definition tryResolve (node : nat) : M Invoked :=
  r ← callResolveNode node;
  match r with
  | Pending => mret tt
  | Throws err => setError node err
  end;;
  mret r.

(** The [for] loop of [resolveNodes]: the promises collected and the ids
    pushed to [center]. *)
Fixpoint invokeVisible (nodes : list nat) : M (list nat * list string) :=
  match nodes with
  | [] => mret ([], [])
  | node :: rest =>
      w ← get;
      if negb (hiddenOf (graph w) node) then
        r ← tryResolve node;
        w' ← get;
        let i := idOf (graph w') node in
        pc ← invokeVisible rest;
        mret (match r with
              | Pending => node :: pc.1
              | Throws _ => pc.1
              end, i :: pc.2)
      else invokeVisible rest
  end.

Definition resolveNodes (nodes : list nat) : M unit :=
  w ← get;
  if forallb (λ n, hiddenOf (graph w) n || resolvedOf (graph w) n) nodes then
    center (map (idOf (graph w)) nodes)
  else
    when hasLoadIndicator (emit (LoadIndicator true));;
    pc ← invokeVisible nodes;
    awaitAll pc.1;;
    refresh;;
    updateModel;; await;;
    when hasLoadIndicator (emit (LoadIndicator false));;
    center pc.2.

(** The [for] loop of one wave of [resolveGraph]: the promises collected. *)
Fixpoint invokeFrontier (nodes : list nat) : M (list nat) :=
  match nodes with
  | [] => mret []
  | node :: rest =>
      r ← tryResolve node;
      ps ← invokeFrontier rest;
      mret (match r with
            | Pending => node :: ps
            | Throws _ => ps
            end)
  end.

(** The [while] loop of [resolveGraph]; [fuel] bounds the number of
    iterations. *)
Fixpoint resolveWaves (fuel : nat) (nodes : list nat) : M unit :=
  match nodes, fuel with
  | [], _ => mret tt
  | _, O => λ w, (OutOfFuel, w)
  | _, S fuel' =>
      promises ← invokeFrontier nodes;
      newNodes ← awaitAll promises;
      resolveWaves fuel' newNodes
  end.

Definition resolveGraph (fuel : nat) : M unit :=
  when hasLoadIndicator (emit (LoadIndicator true));;
  w ← get;
  resolveWaves fuel (unresolvedChildren (graph w));;
  refresh;;
  w' ← get;
  let center_ids := visibleChildIds (graph w') in
  updateModel;; await;;
  when hasLoadIndicator (emit (LoadIndicator false));;
  center center_ids.

Definition clear : M unit :=
  w ← get;
  let g := graph w in
  putGraph (set_children []
    (foldl (λ g' l, match heap g !! l with
                    | Some element => index_remove element g'
                    | None => g'
                    end) g (children g)));;
  setFilter "";;
  updateModel.

(** [handleSelect]: the selected ids that the index resolves to an element
    of type ['node'] are resolved. *)
Definition selectedNodes (g : Graph) (ids : list string) : list nat :=
  omap (λ i, index g !! i ≫= λ l,
             heap g !! l ≫= λ element,
             if String.eqb (type element) "node" then Some l else None) ids.

Definition handleSelect (selectedElementsIDs : list string) : M unit :=
  w ← get;
  let nodes := selectedNodes (graph w) selectedElementsIDs in
  if 0 <? length nodes then resolveNodes nodes else mret tt.

Definition handleComputedBounds (action : ComputedBoundsAction) : M unit :=
  w ← get;
  let g := applyComputed action (graph w) in
  putGraph g;;
  emit Layout;; await;;
  let '(g', outcome) := elkLayout g in
  putGraph g';;
  match outcome with
  | None => doSubmitModel true
  | Some err => emit (LogError err);; doSubmitModel true
  end.

End Controller.

(** ** A registry-backed generator, a name filter and sample graphs *)

(** What the package source answers for a package name. *)
Inductive Fetch :=
  | Deps (names : list string)   (* metadata listing these dependencies *)
  | Fails (reason : string)      (* the fetch is rejected *)
  | Raises (error : string).     (* the request cannot even be set up *)

Definition newNode (name : string) (version : option string) : Element :=
  mkElement name "node" false name version false None None None None None None.

Definition newEdge (source target : string) : Element :=
  mkElement (String.append source (String.append ">" target)) "edge" false ""
            None false None (Some source) (Some target) None None None.

(** A new object: allocated at an unused reference, appended to
    [graph.children] and added to the index under its id. *)
Definition addElement (e : Element) (g : Graph) : Graph * nat :=
  let l := fresh (dom (heap g)) in
  (mkGraph (<[l := e]> (heap g)) (children g ++ [l]) (<[id e := l]> (index g)), l).

Definition npm_generateNode (name : string) (version : option string) (g : Graph)
  : Graph * nat :=
  match refById g name with
  | Some l => (g, l)
  | None => addElement (newNode name version) g
  end.

Definition addDependency (source : string) (acc : Graph * list nat) (dep : string)
  : Graph * list nat :=
  let '(g1, found) :=
    match refById acc.1 dep with
    | Some _ => acc
    | None => let '(g', l) := addElement (newNode dep None) acc.1 in (g', acc.2 ++ [l])
    end in
  let edge := newEdge source dep in
  match refById g1 (id edge) with
  | Some _ => (g1, found)
  | None => ((addElement edge g1).1, found)
  end.

Definition npm_resolveNode (registry : string → Fetch) (node : nat) (g : Graph)
  : Graph * Invoked :=
  match heap g !! node with
  | Some e =>
      if resolved e then (g, Pending)
      else match registry (name e) with
           | Raises err => (g, Throws err)
           | _ => (g, Pending)
           end
  | None => (g, Pending)
  end.

Definition npm_settleNode (registry : string → Fetch) (node : nat) (g : Graph)
  : Graph * Settled :=
  match heap g !! node with
  | Some e =>
      if resolved e then (g, Fulfilled [])
      else match registry (name e) with
           | Deps names =>
               let '(g', found) := foldl (addDependency (name e)) (g, []) names in
               (set_heap (alter (λ e, set_error None (set_resolved true e)) node (heap g')) g',
                Fulfilled found)
           | Fails reason => (g, Rejected reason)
           | Raises _ => (g, Fulfilled [])
           end
  | None => (g, Fulfilled [])
  end.

(** Modelled from the spec: the graph generator ([./graph-generator]) is not
    among the sources.  By the spec's interface, [generateNode(name, version)]
    materializes the node record of a package, whose identity is its name as
    looked up by [createNode]; [resolveNode(node)] yields a promise of the
    newly discovered child nodes, merges them and their edges into the model
    and the index, marks the node resolved, and does nothing on a node that
    is already resolved. *)
Definition npm (registry : string → Fetch) : Generator :=
  mkGenerator npm_generateNode (npm_resolveNode registry) (npm_settleNode registry).

Fixpoint contains (text s : string) : bool :=
  String.prefix text s
  || match s with
     | EmptyString => false
     | String _ s' => contains text s'
     end.

(** A filter that hides the nodes whose name does not contain the text. *)
Definition nameFilter (text : string) (g : Graph) (l : nat) : bool :=
  match heap g !! l with
  | Some e => isNode e && negb (contains text (name e))
  | None => false
  end.

(** Promises settle in the order they were made, or in the reverse order. *)
Definition fifo : World → list nat → nat := λ _ _, 0.
Definition lifo : World → list nat → nat := λ _ promises, length promises - 1.

Definition elkOk : Graph → Graph * option string := λ g, (g, None).
Definition elkBroken : Graph → Graph * option string :=
  λ g, (g, Some "Error: layout failed").

Definition emptyGraph : Graph := mkGraph ∅ [] ∅.
Definition emptyWorld : World := mkWorld emptyGraph "" [].

(** The world an operation leaves behind. *)
Definition after {A} (m : M A) (w : World) : World := (m w).2.

(** The events a run starting in [w] has added when it reached [w']. *)
Definition since (w w' : World) : list Event := drop (length (trace w)) (trace w').

(** The graph of the spec's example: a hidden node, an edge and a visible node. *)
Definition sampleGraph : Graph :=
  let g1 := (addElement (set_hidden true (newNode "hiddenNode1" None)) emptyGraph).1 in
  let g2 := (addElement (mkElement "edge1" "edge" false "" None false None
                           (Some "hiddenNode1") (Some "nodeA") None None None) g1).1 in
  (addElement (newNode "nodeA" None) g2).1.

Definition sampleWorld : World := mkWorld sampleGraph "" [].

(** The dependency chain A -> B -> C; C has no dependencies. *)
Definition chain (name : string) : Fetch :=
  if String.eqb name "A" then Deps ["B"]
  else if String.eqb name "B" then Deps ["C"]
  else Deps [].

(** A registry in which one package cannot be fetched and another cannot
    even be requested. *)
Definition flaky (name : string) : Fetch :=
  if String.eqb name "express" then Deps ["accepts"]
  else if String.eqb name "left-pad" then Fails "Error: 404"
  else if String.eqb name "bad name" then Raises "Error: invalid package name"
  else Deps [].

Definition isCommit (e : Event) : bool :=
  match e with
  | UpdateModel | DoSubmitModel _ => true
  | _ => false
  end.

(** The events of a fetch: the call, the join and the settlement. *)
Definition isFetch (e : Event) : bool :=
  match e with
  | ResolveNode _ _ | PromiseAll _ | Settle _ _ => true
  | _ => false
  end.

Definition isPromiseAll (e : Event) : bool :=
  match e with
  | PromiseAll _ => true
  | _ => false
  end.

(** The number of waves a run made: one [Promise.all] per loop iteration. *)
Definition waves (t : list Event) : nat := length (List.filter isPromiseAll t).

(** Every child object is indexed under its own id. *)
Definition consistent (g : Graph) : bool :=
  forallb (λ c, match heap g !! c with
                | Some e => bool_decide (index g !! id e = Some c)
                | None => true
                end) (children g).

(** Every index entry is stored under the id of some child object. *)
Definition indexCovered (g : Graph) : bool :=
  forallb (λ kl, existsb (λ c, match heap g !! c with
                               | Some e => String.eqb (id e) kl.1
                               | None => false
                               end) (children g))
          (map_to_list (index g)).

(** What [createNode] relies on when it calls [generateNode(name, version)]
    on graph [g]: the node it gets back is a node object whose id is the
    [name] that was looked up, it is in the index under that id, and a node
    that was not there before is not hidden. *)
Definition materialized (name : string) (g g' : Graph) (node : nat) : bool :=
  bool_decide (index g' !! name = Some node)
  && match heap g' !! node with
     | Some e =>
         String.eqb (id e) name && isNode e
         && match getById g name with
            | None => negb (hidden e)
            | Some _ => true
            end
     | None => false
     end.

(** Two unresolved packages, [express] at reference 0 and [left-pad] at 1. *)
Definition packagesWorld : World :=
  mkWorld (addElement (newNode "left-pad" None)
             (addElement (newNode "express" None) emptyGraph).1).1 "" [].

(** [express] at reference 0 and a package with an ill-formed name at 1. *)
Definition badNameWorld : World :=
  mkWorld (addElement (newNode "bad name" None)
             (addElement (newNode "express" None) emptyGraph).1).1 "" [].

(** The single unresolved node A, at reference 0. *)
Definition chainWorld : World :=
  mkWorld (addElement (newNode "A" None) emptyGraph).1 "" [].

(** The chain after a full resolution. *)
Definition resolvedWorld : World :=
  after (resolveGraph (npm chain) nameFilter fifo true 3) chainWorld.

(** The graph after the [catch] clause of the guarded call. *)
Definition caught (r : Invoked) (node : nat) (g : Graph) : Graph :=
  match r with
  | Pending => g
  | Throws err => set_heap (alter (set_error (Some err)) node (heap g)) g
  end.

(** [g'] still has every object of [g], under the same id and with the same
    [hidden] flag. *)
Definition keeps (g g' : Graph) : Prop :=
  ∀ l e, heap g !! l = Some e →
         ∃ e', heap g' !! l = Some e' ∧ id e' = id e ∧ hidden e' = hidden e.

(** Between [g] and [g'] no [error] field changed, except perhaps that of [n]. *)
Definition keepsErrorsBut (n : nat) (g g' : Graph) : Prop :=
  ∀ l, l ≠ n → errorOf g' l = errorOf g l.

(** Modelled from the spec: what the data model's invariants say of any
    graph generator.  It never drops or renames an object, it leaves the
    [hidden] flags to the graph filter, and resolving one node does not
    touch the [error] of another. *)
Record WellBehaved (gen : Generator) : Prop := mkWellBehaved {
  call_keeps : ∀ n g, keeps g (resolveNode gen n g).1;
  call_local : ∀ n g, keepsErrorsBut n g (resolveNode gen n g).1;
  settle_local : ∀ n g, keepsErrorsBut n g (settleNode gen n g).1
}.

(** The nodes of a batch that are not hidden. *)
Definition visibleOf (g : Graph) (nodes : list nat) : list nat :=
  List.filter (λ m, negb (hiddenOf g m)) nodes.

(** The batch [express], [bad name] after [resolveNodes]. *)
Definition badNameRun : World :=
  after (resolveNodes (npm flaky) nameFilter fifo true [0; 1]) badNameWorld.

(** ** The shape of a run of the loop of [resolveGraph] *)

(** The nodes whose call returned a promise. *)
Definition pendingOf (calls : list Event) : list nat :=
  omap (λ e, match e with
             | ResolveNode n Pending => Some n
             | _ => None
             end) calls.

(** One call per frontier node, in the order of the frontier. *)
Definition CallsOf (frontier : list nat) (calls : list Event) : Prop :=
  Forall2 (λ n e, ∃ r, e = ResolveNode n r) frontier calls.

Definition fulfilments (ps : list (nat * list nat)) : list Event :=
  map (λ pr, Settle pr.1 (Fulfilled pr.2)) ps.

(** How the promises of one wave settle: all of them fulfil, in some order,
    and the results are collected in that order; or some fulfil and then
    one is rejected. *)
Inductive Settles (promises : list nat) : list Event → Res (list nat) → Prop :=
  | Settles_all ps :
      map fst ps ≡ₚ promises →
      Settles promises (fulfilments ps) (Done (concat (map snd ps)))
  | Settles_rejected ps p reason :
      p :: map fst ps ⊆+ promises →
      Settles promises (fulfilments ps ++ [Settle p (Rejected reason)]) (Reject reason).

(** A run of waves from a frontier: every wave makes its calls, gives up
    control, and has all its promises settled before the next wave starts
    from the nodes that the settlements returned. *)
Inductive Waves : list nat → list Event → Res unit → Prop :=
  | Waves_done : Waves [] [] (Done tt)
  | Waves_fuel frontier : frontier ≠ [] → Waves frontier [] OutOfFuel
  | Waves_rejected frontier calls settles reason :
      frontier ≠ [] →
      CallsOf frontier calls →
      Settles (pendingOf calls) settles (Reject reason) →
      Waves frontier (calls ++ [PromiseAll (pendingOf calls); Suspend] ++ settles)
            (Reject reason)
  | Waves_next frontier calls settles newNodes rest res :
      frontier ≠ [] →
      CallsOf frontier calls →
      Settles (pendingOf calls) settles (Done newNodes) →
      Waves newNodes rest res →
      Waves frontier
            (calls ++ [PromiseAll (pendingOf calls); Suspend] ++ settles ++ rest) res.

(** A scheduler that is not asked when a single promise is pending. *)
Definition singleFirst (sched : World → list nat → nat) : World → list nat → nat :=
  λ w promises, match promises with
                | [_] => 0
                | _ => sched w promises
                end.

(** Computed bounds for the visible node and for an element that is gone,
    and an alignment for the edge. *)
Definition sampleBounds : ComputedBoundsAction :=
  mkComputedBoundsAction
    [mkElementAndBounds "nodeA" (mkBounds 10 20 80 30);
     mkElementAndBounds "gone" (mkBounds 0 0 1 1)]
    (Some [mkElementAndAlignment "edge1" (mkPoint 3 4)]).

(** ** Further operations and vocabulary *)

(** [handleSelectAll]: on [select], all the index elements of type ['node']
    are resolved.  [index.all()] lists the elements in the order of the
    underlying map, which the id index here does not record: [indexOrder] is
    that enumeration, as references. *)
Definition handleSelectAll (gen : Generator) (hide : string → Graph → nat → bool)
    (sched : World → list nat → nat) (hasLoadIndicator : bool)
    (indexOrder : Graph → list nat) (select : bool) : M unit :=
  if select then
    w ← get;
    let nodes := List.filter (deref (λ element, String.eqb (type element) "node")
                                    false (graph w))
                             (indexOrder (graph w)) in
    if 0 <? length nodes
    then resolveNodes gen hide sched hasLoadIndicator nodes
    else mret tt
  else mret tt.

(** What [resolveNodes] and [resolveGraph] do once the fetches are in: the
    filter pass, the commit, switching the load indicator off, centering. *)
Definition isWrapUp (e : Event) : bool :=
  match e with
  | Refresh | UpdateModel | DoSubmitModel _ | LoadIndicator false | Dispatch _ => true
  | _ => false
  end.

(** Two element records that differ in their geometry at most. *)
Definition sameButGeometry (e e' : Element) : Prop :=
  id e' = id e ∧ type e' = type e ∧ hidden e' = hidden e ∧ name e' = name e
  ∧ version e' = version e ∧ resolved e' = resolved e ∧ error e' = error e
  ∧ sourceId e' = sourceId e ∧ targetId e' = targetId e.

(** Two graphs with the same children, the same index and the same objects
    up to their geometry. *)
Definition geometryOnly (g g' : Graph) : Prop :=
  children g' = children g
  ∧ index g' = index g
  ∧ ∀ l, match heap g !! l, heap g' !! l with
         | Some e, Some e' => sameButGeometry e e'
         | None, None => True
         | _, _ => False
         end.

(** The ids of the model's children. *)
Definition childIds (g : Graph) : list string :=
  omap (λ l, id <$> heap g !! l) (children g).

(** [express] resolved, the package with the ill-formed name not. *)
Definition mixedWorld : World :=
  after (resolveNodes (npm flaky) nameFilter fifo true [0]) badNameWorld.

(** A graph that holds a single edge. *)
Definition edgeWorld : World :=
  mkWorld (addElement (newEdge "a" "b") emptyGraph).1 "" [].

(** An enumeration of the index. *)
Definition listedIndex (g : Graph) : list nat := (map_to_list (index g)).*2.

(** Bounds for an element that is gone only. *)
Definition goneBounds : ComputedBoundsAction :=
  mkComputedBoundsAction [mkElementAndBounds "gone" (mkBounds 0 0 1 1)]
                         (Some [mkElementAndAlignment "gone" (mkPoint 1 1)]).

(** Bounds that name the visible node twice. *)
Definition repeatedBounds : ComputedBoundsAction :=
  mkComputedBoundsAction
    [mkElementAndBounds "nodeA" (mkBounds 1 2 3 4);
     mkElementAndBounds "gone" (mkBounds 0 0 1 1);
     mkElementAndBounds "nodeA" (mkBounds 10 20 80 30);
     mkElementAndBounds "edge1" (mkBounds 5 5 5 5)]
    (Some [mkElementAndAlignment "nodeA" (mkPoint 3 4)]).

(** The filter text [exp] is set while only [express] is there; the package
    with the ill-formed name is created afterwards, at reference 1. *)
Definition filteredWorld : World :=
  after (createNode (npm flaky) "bad name" None)
    (after (filter nameFilter "exp")
       (after (createNode (npm flaky) "express" None) emptyWorld)).

(** * Properties *)

Ltac run :=
  repeat (unfold mbind, mret, M_bind, M_ret, bind, ret, get, emit, putGraph,
          putFilterText, throw, when, dispatch, updateModel, doSubmitModel,
          await, after; cbn [fst snd graph filterText trace Nat.ltb Nat.leb length]).

Ltac run_in H :=
  repeat (unfold mbind, mret, M_bind, M_ret, bind, ret, get, emit, putGraph,
          putFilterText, throw, when, dispatch, updateModel, doSubmitModel,
          await, after in H;
          cbn [fst snd graph filterText trace Nat.ltb Nat.leb length] in H).

Lemma since_app (w w' : World) (evs : list Event) :
  trace w' = trace w ++ evs → since w w' = evs.
Proof. intros H. unfold since. rewrite H. apply drop_app_length. Qed.

Lemma world_eta (w : World) : mkWorld (graph w) (filterText w) (trace w) = w.
Proof. by destruct w. Qed.

Lemma elem_of_filter_visible (g : Graph) (ids : list string) (i : string) :
  i ∈ List.filter (visibleNode g) ids ↔
  i ∈ ids ∧ ∃ e, getById g i = Some e ∧ type e = "node" ∧ hidden e = false.
Proof.
  rewrite !list_elem_of_In, filter_In, <- list_elem_of_In. unfold visibleNode, isNode.
  split.
  - intros [Hin Hv]. split; [done|].
    destruct (getById g i) as [e|]; [|done].
    apply andb_true_iff in Hv as [Ht Hh]. exists e.
    apply String.eqb_eq in Ht. apply negb_true_iff in Hh. done.
  - intros [Hin (e & -> & Ht & Hh)]. split; [done|].
    rewrite Ht, Hh. reflexivity.
Qed.

Lemma center_run (elementIds : list string) (w : World) :
  center elementIds w
  = (Done tt,
     mkWorld (graph w) (filterText w)
       (trace w ++ match elementIds with
                   | [] => []
                   | _ => [Dispatch (FitToScreenAction
                             (List.filter (visibleNode (graph w)) elementIds) 20 1 true)]
                   end)).
Proof.
  unfold center. destruct elementIds as [|i ids]; run.
  - by rewrite app_nil_r, world_eta.
  - done.
Qed.

Lemma when_emit_run (b : bool) (e : Event) (w : World) :
  when b (emit e) w
  = (Done tt, mkWorld (graph w) (filterText w) (trace w ++ if b then [e] else [])).
Proof. destruct b; run; [done|]. by rewrite app_nil_r, world_eta. Qed.

Section SelectionFacts.

(** C9: [select] and [center] leave the model (the objects, the children)
    and the index as they were, as well as the filter text: all they do
    is read the index and, at most, dispatch. *)
Theorem select_center_frame (elementIds : list string) (w : World) :
  graph (after (select elementIds) w) = graph w
  ∧ filterText (after (select elementIds) w) = filterText w
  ∧ graph (after (center elementIds) w) = graph w
  ∧ filterText (after (center elementIds) w) = filterText w
  ∧ (∀ e, e ∈ since w (after (select elementIds) w) ++ since w (after (center elementIds) w)
          → ∃ a, e = Dispatch a).
Proof.
  unfold select, center.
  destruct elementIds as [|i ids]; run.
  - repeat split; try done.
    rewrite !(since_app w w []) by (by rewrite app_nil_r).
    intros e He. by apply elem_of_nil in He.
  - repeat split; try done.
    erewrite !since_app by (cbn; reflexivity). cbn.
    intros e He. apply elem_of_cons in He as [->|He]; [eauto|].
    apply elem_of_cons in He as [->|He]; [eauto|]. by apply elem_of_nil in He.
Qed.

(** C4, as the code has it: on a non-empty list [select] dispatches exactly
    one selection, naming exactly the requested ids that the index resolves
    to a node that is not hidden, also when none of them is left; on the
    empty list it dispatches nothing and changes nothing. *)
Theorem select_dispatches_filtered (elementIds : list string) (w : World) :
  select elementIds w =
    (Done tt,
     mkWorld (graph w) (filterText w)
             (trace w ++ match elementIds with
                         | [] => []
                         | _ => [Dispatch (SelectAction
                                   (List.filter (visibleNode (graph w)) elementIds))]
                         end))
  ∧ ∀ i, i ∈ List.filter (visibleNode (graph w)) elementIds ↔
         i ∈ elementIds
         ∧ ∃ e, getById (graph w) i = Some e ∧ type e = "node" ∧ hidden e = false.
Proof.
  split; [|intros i; apply elem_of_filter_visible].
  unfold select. destruct elementIds as [|i ids]; run.
  - by rewrite app_nil_r, world_eta.
  - done.
Qed.

(** The spec's example: a hidden node, an edge and a visible node. *)
Example select_sample :
  since sampleWorld (after (select ["hiddenNode1"; "edge1"; "nodeA"]) sampleWorld)
  = [Dispatch (SelectAction ["nodeA"])].
Proof. vm_compute. reflexivity. Qed.

(** C4 as stated fails: when the ids are all filtered out, a selection
    (of nothing) is dispatched all the same. *)
Lemma select_empty_result_still_dispatches :
  ¬ (∀ (elementIds : list string) (w : World),
       List.filter (visibleNode (graph w)) elementIds = [] →
       since w (after (select elementIds) w) = []).
Proof.
  intros H. specialize (H ["edge1"] sampleWorld).
  assert (Hf : List.filter (visibleNode (graph sampleWorld)) ["edge1"] = [])
    by (vm_compute; reflexivity).
  specialize (H Hf). vm_compute in H. discriminate H.
Qed.

End SelectionFacts.

Lemma filter_all_true {A} (p : A → bool) (l : list A) :
  (∀ x, x ∈ l → p x = true) → List.filter p l = l.
Proof.
  induction l as [|x l IH]; intros H; [done|]. cbn.
  rewrite (H x) by (apply elem_of_cons; by left).
  f_equal. apply IH. intros y Hy. apply H. apply elem_of_cons. by right.
Qed.

Lemma clear_loop_index (h : gmap nat Element) (cs : list nat) (g : Graph) (i : string) :
  index (foldl (λ g' l, match h !! l with
                        | Some element => index_remove element g'
                        | None => g'
                        end) g cs) !! i
  = if existsb (λ c, match h !! c with
                     | Some e => String.eqb (id e) i
                     | None => false
                     end) cs
    then None else index g !! i.
Proof.
  revert g. induction cs as [|c cs IH]; intros g; [done|].
  cbn [foldl existsb]. rewrite IH. clear IH.
  destruct (existsb _ cs) eqn:Hex.
  - by rewrite orb_true_r.
  - rewrite orb_false_r. destruct (h !! c) as [e|]; [|done].
    unfold index_remove, set_index. cbn [index].
    destruct (String.eqb (id e) i) eqn:Heq.
    + apply String.eqb_eq in Heq as <-. apply lookup_delete_eq.
    + apply String.eqb_neq in Heq. by apply lookup_delete_ne.
Qed.

Section ControllerFacts.

Variable gen : Generator.
Variable hide : string → Graph → nat → bool.
Variable sched : World → list nat → nat.
Variable hasLoadIndicator : bool.
Variable elkLayout : Graph → Graph * option string.

Lemma refresh_graph_lookup (text : string) (g : Graph) (l : nat) :
  heap (refresh_graph hide text g) !! l
  = (λ e, if bool_decide (l ∈ children g) then set_hidden (hide text g l) e else e)
      <$> heap g !! l.
Proof.
  unfold refresh_graph, set_heap. cbn [heap].
  rewrite map_lookup_imap. by destruct (heap g !! l).
Qed.

(** C5: on a non-empty batch of nodes that are all hidden or resolved,
    [resolveNodes] does one thing, the fit-to-screen dispatch of [center]
    on the ids of the given nodes: no generator call, no load indicator,
    no filter pass, no model commit, and the graph is left as it was. *)
Theorem resolveNodes_short_circuit (nodes : list nat) (w : World) :
  nodes ≠ [] →
  (∀ n, n ∈ nodes → hiddenOf (graph w) n = true ∨ resolvedOf (graph w) n = true) →
  resolveNodes gen hide sched hasLoadIndicator nodes w
  = center (map (idOf (graph w)) nodes) w
  ∧ center (map (idOf (graph w)) nodes) w
    = (Done tt,
       mkWorld (graph w) (filterText w)
         (trace w ++ [Dispatch (FitToScreenAction
                        (List.filter (visibleNode (graph w)) (map (idOf (graph w)) nodes))
                        20 1 true)])).
Proof.
  intros Hne Hall. split.
  - unfold resolveNodes. run.
    replace (forallb _ nodes) with true; [done|].
    symmetry. apply forallb_forall. intros n Hn.
    apply list_elem_of_In, Hall in Hn. apply orb_true_iff. done.
  - unfold center. destruct nodes as [|n nodes]; [done|]. by run.
Qed.

Lemma visibleChildIds_refresh (text : string) (g : Graph) :
  visibleChildIds (refresh_graph hide text g)
  = omap (λ c, heap g !! c ≫= λ e,
               if isNode e && negb (hide text g c) then Some (id e) else None)
         (children g).
Proof.
  unfold visibleChildIds. change (children (refresh_graph hide text g)) with (children g).
  assert (H : ∀ cs, (∀ c, c ∈ cs → c ∈ children g) →
            map id (List.filter (λ c, isNode c && negb (hidden c))
                      (omap (λ l, heap (refresh_graph hide text g) !! l) cs))
            = omap (λ c, heap g !! c ≫= λ e,
                         if isNode e && negb (hide text g c) then Some (id e) else None) cs).
  { induction cs as [|c cs IH]; intros Hcs; [done|].
    assert (Hc : c ∈ children g) by (apply Hcs, elem_of_cons; by left).
    assert (IH' := IH (λ c' Hc', Hcs c' (proj2 (elem_of_cons cs c' c) (or_intror Hc')))).
    cbn [omap list_omap]. rewrite refresh_graph_lookup.
    destruct (heap g !! c) as [e|]; cbn [fmap option_fmap option_map mbind option_bind];
      [|exact IH'].
    rewrite (bool_decide_eq_true_2 _ Hc).
    change (isNode (set_hidden (hide text g c) e)) with (isNode e).
    change (hidden (set_hidden (hide text g c) e)) with (hide text g c).
    cbn [List.filter].
    change (isNode (set_hidden (hide text g c) e)) with (isNode e).
    change (hidden (set_hidden (hide text g c) e)) with (hide text g c).
    destruct (isNode e && negb (hide text g c)); cbn [map]; by rewrite IH'. }
  by apply H.
Qed.

(** C6: [filter(text)] sets the filter text, refreshes the filter over the
    graph, dispatches the deselect-all, captures the ids of the nodes that
    are visible under the refreshed flags, commits the model and then
    calls [center] on the captured ids.  The captured ids are, in the order
    of the children, the ids of exactly the children of type node that the
    filter, run with the new text, does not hide; when every child is
    indexed under its id, the fit-to-screen dispatch names exactly them. *)
Theorem filter_sequence (text : string) (w : World) :
  let g' := refresh_graph hide text (graph w) in
  let captured := visibleChildIds g' in
  filter hide text w
  = center captured
      (mkWorld g' text
         (trace w ++ [SetFilter text; Refresh; Dispatch (SelectAllAction false);
                      UpdateModel; Suspend]))
  ∧ after (filter hide text) w
    = mkWorld g' text
        (trace w ++ [SetFilter text; Refresh; Dispatch (SelectAllAction false);
                     UpdateModel; Suspend]
                 ++ match captured with
                    | [] => []
                    | _ => [Dispatch (FitToScreenAction
                              (List.filter (visibleNode g') captured) 20 1 true)]
                    end)
  ∧ captured
    = omap (λ c, heap (graph w) !! c ≫= λ e,
                 if isNode e && negb (hide text (graph w) c) then Some (id e) else None)
           (children (graph w))
  ∧ (∀ i, i ∈ captured ↔
          ∃ c e, c ∈ children (graph w) ∧ heap (graph w) !! c = Some e
                 ∧ id e = i ∧ type e = "node" ∧ hide text (graph w) c = false)
  ∧ (consistent (graph w) = true → List.filter (visibleNode g') captured = captured).
Proof.
  intros g' captured.
  assert (Heq : filter hide text w
                = center captured
                    (mkWorld g' text
                       (trace w ++ [SetFilter text; Refresh;
                                    Dispatch (SelectAllAction false);
                                    UpdateModel; Suspend]))).
  { unfold filter, setFilter, refresh. run.
    rewrite <- !app_assoc. reflexivity. }
  assert (Hcap : captured
                 = omap (λ c, heap (graph w) !! c ≫= λ e,
                              if isNode e && negb (hide text (graph w) c)
                              then Some (id e) else None)
                        (children (graph w)))
    by apply visibleChildIds_refresh.
  split; [exact Heq|]. split; [|split; [exact Hcap|split]].
  - unfold after. rewrite Heq. unfold center.
    destruct captured as [|i ids]; run.
    + by rewrite app_nil_r.
    + by rewrite <- app_assoc.
  - intros i. rewrite Hcap, list_elem_of_omap. split.
    + intros (c & Hc & Hsel). destruct (heap (graph w) !! c) as [e|] eqn:He; [|done].
      cbn in Hsel. destruct (isNode e && negb (hide text (graph w) c)) eqn:Hv; [|done].
      injection Hsel as <-. apply andb_true_iff in Hv as [Hn Hh].
      apply String.eqb_eq in Hn. apply negb_true_iff in Hh. exists c, e. done.
    + intros (c & e & Hc & He & <- & Ht & Hh). exists c. split; [done|].
      rewrite He. cbn. unfold isNode. rewrite Ht, Hh. done.
  - intros Hc. apply filter_all_true. intros i Hi.
    unfold captured, visibleChildIds in Hi.
    apply list_elem_of_In, in_map_iff in Hi as (e' & <- & He').
    apply filter_In in He' as [He' Hvis].
    apply list_elem_of_In, list_elem_of_omap in He' as (c & Hc1 & Hc2).
    unfold g' in Hc1, Hc2. cbn [children heap refresh_graph set_heap] in Hc1.
    rewrite refresh_graph_lookup in Hc2.
    destruct (heap (graph w) !! c) as [e|] eqn:Hh; [|done].
    cbn in Hc2. injection Hc2 as <-.
    unfold consistent in Hc. rewrite forallb_forall in Hc.
    specialize (Hc c (proj1 (list_elem_of_In _ _) Hc1)). rewrite Hh in Hc.
    apply bool_decide_eq_true in Hc.
    unfold visibleNode, getById.
    assert (Hid : id (if bool_decide (c ∈ children (graph w))
                      then set_hidden (hide text (graph w) c) e else e) = id e)
      by (by destruct (bool_decide _)).
    rewrite Hid.
    change (index g') with (index (graph w)). rewrite Hc.
    cbn [mbind option_bind]. unfold g'. rewrite refresh_graph_lookup, Hh.
    exact Hvis.
Qed.

(** C7: when every index entry belongs to a child of the model, [clear]
    leaves an empty index (so [index.all()] is empty), an empty children
    list and the empty filter text, and commits the model; it does all of
    this without giving up control in between: no suspension point is
    recorded, so no other operation runs on a half-cleared state. *)
Theorem clear_empties (w : World) :
  indexCovered (graph w) = true →
  let w' := after clear w in
  (clear w).1 = Done tt
  ∧ index (graph w') = ∅
  ∧ all (graph w') = []
  ∧ children (graph w') = []
  ∧ filterText w' = ""
  ∧ since w w' = [SetFilter ""; UpdateModel]
  ∧ Suspend ∉ since w w'.
Proof.
  intros Hcov w'.
  assert (Hidx : index (graph w') = ∅).
  { unfold w', clear, setFilter. run. unfold set_children. cbn [index].
    apply map_eq. intros i. rewrite lookup_empty, clear_loop_index.
    destruct (existsb _ _) eqn:Hex; [done|].
    destruct (index (graph w) !! i) as [l|] eqn:Hi; [|done].
    exfalso. unfold indexCovered in Hcov. rewrite forallb_forall in Hcov.
    specialize (Hcov (i, l)). cbn [fst] in Hcov.
    rewrite Hex in Hcov. apply Bool.diff_false_true, Hcov.
    apply list_elem_of_In, elem_of_map_to_list. exact Hi. }
  assert (Htr : since w w' = [SetFilter ""; UpdateModel]).
  { apply since_app. unfold w', clear, setFilter. run.
    by rewrite <- app_assoc. }
  repeat split; try done.
  - unfold all. rewrite Hidx, map_to_list_empty. done.
  - rewrite Htr. intros H.
    apply elem_of_cons in H as [H|H]; [done|].
    apply elem_of_cons in H as [H|H]; [done|]. by apply elem_of_nil in H.
Qed.

(** C8: whether the layout promise fulfils or rejects,
    [handleComputedBounds] ends with one model commit, and it is its only
    one; on rejection the error is logged first. *)
Theorem handleComputedBounds_commits_once (action : ComputedBoundsAction) (w : World) :
  let g := applyComputed action (graph w) in
  let w' := after (handleComputedBounds elkLayout action) w in
  (handleComputedBounds elkLayout action w).1 = Done tt
  ∧ since w w'
    = [Layout; Suspend]
        ++ match (elkLayout g).2 with
           | None => []
           | Some err => [LogError err]
           end
        ++ [DoSubmitModel true]
  ∧ length (List.filter isCommit (since w w')) = 1
  ∧ last (since w w') = Some (DoSubmitModel true).
Proof.
  intros g w'.
  assert (Htr : since w w'
                = [Layout; Suspend]
                    ++ match (elkLayout g).2 with
                       | None => []
                       | Some err => [LogError err]
                       end
                    ++ [DoSubmitModel true]).
  { apply since_app. unfold w', handleComputedBounds. run. fold g.
    destruct (elkLayout g) as [g3 [err|]]; run; by rewrite <- !app_assoc. }
  split; [|split; [exact Htr|]].
  - unfold handleComputedBounds. run. fold g.
    destruct (elkLayout g) as [g3 [err|]]; by run.
  - rewrite Htr. destruct (elkLayout g).2; done.
Qed.

End ControllerFacts.

Section CreateNodeFacts.

Variable gen : Generator.

(** C3: with a generator whose node for [(name, version)] carries the id
    [name] that [createNode] looks up, [createNode] commits the model and
    dispatches the selection of the node exactly when the index had no
    element under that id; otherwise it neither commits nor dispatches.
    Hence a second call with the same arguments does neither, and the
    index still holds the one node under that id. *)
Theorem createNode_once (name : string) (version : option string) (w : World) :
  let r1 := generateNode gen name version (graph w) in
  let w1 := after (createNode gen name version) w in
  let r2 := generateNode gen name version (graph w1) in
  let w2 := after (createNode gen name version) w1 in
  materialized name (graph w) r1.1 r1.2 = true →
  materialized name (graph w1) r2.1 r2.2 = true →
  (getById (graph w) name = None →
     since w w1 = [GenerateNode name version; UpdateModel; Suspend;
                   Dispatch (SelectAction [name])])
  ∧ (getById (graph w) name ≠ None → since w w1 = [GenerateNode name version])
  ∧ since w1 w2 = [GenerateNode name version]
  ∧ ∃ e, getById (graph w2) name = Some e ∧ id e = name ∧ isNode e = true.
Proof.
  intros r1 w1 r2 w2 H1 H2.
  assert (Hstep : ∀ (v : World),
    let r := generateNode gen name version (graph v) in
    let v' := after (createNode gen name version) v in
    materialized name (graph v) r.1 r.2 = true →
    graph v' = r.1
    ∧ (∃ e, getById r.1 name = Some e ∧ id e = name ∧ isNode e = true)
    ∧ (getById (graph v) name = None →
         since v v' = [GenerateNode name version; UpdateModel; Suspend;
                       Dispatch (SelectAction [name])])
    ∧ (getById (graph v) name ≠ None → since v v' = [GenerateNode name version])).
  { intros v r v' Hm. unfold materialized in Hm.
    apply andb_true_iff in Hm as [Hi Hm]. apply bool_decide_eq_true in Hi.
    destruct (heap r.1 !! r.2) as [e|] eqn:He; [|done].
    apply andb_true_iff in Hm as [Hm Hh]. apply andb_true_iff in Hm as [Hid Hn].
    apply String.eqb_eq in Hid.
    assert (Hget : getById r.1 name = Some e)
      by (unfold getById; rewrite Hi; exact He).
    unfold v', createNode, callGenerateNode, select. run. fold r.
    destruct r as [g node] eqn:Hr. cbn [fst snd] in *.
    destruct (getById (graph v) name) as [old|] eqn:Hold; run.
    - repeat split; [eauto| |].
      + intros Hnone. done.
      + intros _. by apply since_app.
    - repeat split; [eauto| |].
      + intros _. apply since_app. cbn [trace].
        rewrite <- !app_assoc. cbn. do 5 f_equal.
        unfold idOf, deref. rewrite He. cbn. rewrite Hid.
        unfold visibleNode. rewrite Hget, Hn. apply negb_true_iff in Hh.
        rewrite Hh. done.
      + intros Hnone. done. }
  destruct (Hstep w H1) as (Hg1 & (e1 & Hget1 & _) & Hnew & Hold).
  destruct (Hstep w1 H2) as (Hg2 & Hex & _ & Hold2).
  split; [exact Hnew|]. split; [exact Hold|]. split.
  - apply Hold2. unfold w1. rewrite Hg1, Hget1. done.
  - unfold w2. rewrite Hg2. exact Hex.
Qed.

End CreateNodeFacts.

(** C3, on the registry-backed generator: [createNode("pkg", "1.0.0")] twice. *)
Lemma createNode_once_witness :
  (getById (graph emptyWorld) "pkg" = None →
     since emptyWorld (after (createNode (npm chain) "pkg" (Some "1.0.0")) emptyWorld)
     = [GenerateNode "pkg" (Some "1.0.0"); UpdateModel; Suspend;
        Dispatch (SelectAction ["pkg"])])
  ∧ (getById (graph emptyWorld) "pkg" ≠ None →
       since emptyWorld (after (createNode (npm chain) "pkg" (Some "1.0.0")) emptyWorld)
       = [GenerateNode "pkg" (Some "1.0.0")])
  ∧ since (after (createNode (npm chain) "pkg" (Some "1.0.0")) emptyWorld)
          (after (createNode (npm chain) "pkg" (Some "1.0.0"))
             (after (createNode (npm chain) "pkg" (Some "1.0.0")) emptyWorld))
    = [GenerateNode "pkg" (Some "1.0.0")]
  ∧ ∃ e, getById (graph (after (createNode (npm chain) "pkg" (Some "1.0.0"))
                           (after (createNode (npm chain) "pkg" (Some "1.0.0")) emptyWorld)))
                 "pkg" = Some e
         ∧ id e = "pkg" ∧ isNode e = true.
Proof.
  apply (createNode_once (npm chain) "pkg" (Some "1.0.0") emptyWorld).
  - vm_compute. reflexivity.
  - vm_compute. reflexivity.
Defined.

(** C1, at a batch with one rejecting fetch: [express] fulfils, the fetch of
    [left-pad] is rejected.  [resolveNodes] itself is rejected with that
    reason; nothing is filtered or committed, the load indicator is not
    switched off, nothing is centered, and [left-pad] has no [error]. *)
Theorem resolveNodes_rejection_aborts_batch :
  let r := resolveNodes (npm flaky) nameFilter fifo true [0; 1] packagesWorld in
  r.1 = Reject "Error: 404"
  ∧ since packagesWorld r.2
    = [LoadIndicator true; ResolveNode 0 Pending; ResolveNode 1 Pending;
       PromiseAll [0; 1]; Suspend;
       Settle 0 (Fulfilled [2]); Settle 1 (Rejected "Error: 404")]
  ∧ List.filter isCommit (since packagesWorld r.2) = []
  ∧ resolvedOf (graph r.2) 0 = true
  ∧ errorOf (graph r.2) 1 = None.
Proof. vm_compute. repeat split; reflexivity. Qed.

(** ** The guarded call and the loop of [resolveNodes] *)

Lemma keeps_refl (g : Graph) : keeps g g.
Proof. intros l e He. eauto. Qed.

Lemma keeps_trans (g1 g2 g3 : Graph) : keeps g1 g2 → keeps g2 g3 → keeps g1 g3.
Proof.
  intros H12 H23 l e He.
  destruct (H12 l e He) as (e2 & He2 & Hi2 & Hh2).
  destruct (H23 l e2 He2) as (e3 & He3 & Hi3 & Hh3).
  exists e3. repeat split; congruence.
Qed.

Lemma keeps_caught (r : Invoked) (node : nat) (g : Graph) : keeps g (caught r node g).
Proof.
  destruct r as [err|]; [|apply keeps_refl].
  intros l e He. unfold caught, set_heap. cbn [heap].
  destruct (decide (l = node)) as [->|Hne].
  - exists (set_error (Some err) e). rewrite lookup_alter_eq, He. done.
  - exists e. rewrite lookup_alter_ne by done. done.
Qed.

Lemma keeps_fields (g g' : Graph) (l : nat) :
  keeps g g' → is_Some (heap g !! l) →
  idOf g' l = idOf g l ∧ hiddenOf g' l = hiddenOf g l ∧ is_Some (heap g' !! l).
Proof.
  intros Hk [e He]. destruct (Hk l e He) as (e' & He' & Hi & Hh).
  unfold idOf, hiddenOf, deref. rewrite He, He'. cbn. eauto.
Qed.

Lemma errorOf_caught_other (r : Invoked) (node l : nat) (g : Graph) :
  l ≠ node → errorOf (caught r node g) l = errorOf g l.
Proof.
  intros Hne. destruct r as [err|]; [|done].
  unfold errorOf, deref, caught, set_heap. cbn [heap].
  by rewrite lookup_alter_ne.
Qed.

Lemma errorOf_caught_throw (err : string) (node : nat) (g : Graph) :
  is_Some (heap g !! node) → errorOf (caught (Throws err) node g) node = Some err.
Proof.
  intros [e He]. unfold errorOf, deref, caught, set_heap. cbn [heap].
  rewrite lookup_alter_eq, He. done.
Qed.

Lemma visibleOf_ext (g g' : Graph) (nodes : list nat) :
  keeps g g' → (∀ m, m ∈ nodes → is_Some (heap g !! m)) →
  map (idOf g') (visibleOf g' nodes) = map (idOf g) (visibleOf g nodes).
Proof.
  intros Hk. induction nodes as [|m nodes IH]; intros Hall; [done|].
  assert (Hm : is_Some (heap g !! m)) by (apply Hall, elem_of_cons; by left).
  destruct (keeps_fields g g' m Hk Hm) as (Hi & Hh & _).
  unfold visibleOf in *. cbn [List.filter]. rewrite Hh.
  destruct (negb (hiddenOf g m)); cbn [map]; rewrite IH; try congruence;
    intros x Hx; apply Hall, elem_of_cons; by right.
Qed.

Lemma pick_perm (k : nat) (l : list nat) (p : nat) (others : list nat) :
  pick k l = Some (p, others) → l ≡ₚ p :: others.
Proof.
  unfold pick. destruct (l !! k) as [x|] eqn:Hk.
  - intros [= <- <-]. by apply delete_Permutation.
  - destruct l as [|x rest]; [done|]. by intros [= <- <-].
Qed.

Lemma pick_none (k : nat) (l : list nat) : pick k l = None → l = [].
Proof.
  unfold pick. destruct (l !! k); [done|]. by destruct l.
Qed.

Section ResolveNodesFacts.

Variable gen : Generator.
Variable hide : string → Graph → nat → bool.
Variable sched : World → list nat → nat.
Variable hasLoadIndicator : bool.

Lemma tryResolve_run (node : nat) (w : World) :
  tryResolve gen node w
  = (Done (resolveNode gen node (graph w)).2,
     mkWorld (caught (resolveNode gen node (graph w)).2 node
                     (resolveNode gen node (graph w)).1)
             (filterText w)
             (trace w ++ [ResolveNode node (resolveNode gen node (graph w)).2])).
Proof.
  unfold tryResolve, callResolveNode, setError. run.
  destruct (resolveNode gen node (graph w)) as [g1 [err|]]; by run.
Qed.

Lemma errorOf_refresh (text : string) (g : Graph) (l : nat) :
  errorOf (refresh_graph hide text g) l = errorOf g l.
Proof.
  unfold errorOf, deref. rewrite refresh_graph_lookup.
  destruct (heap g !! l) as [e|]; [|done]. cbn.
  by destruct (bool_decide _).
Qed.

Hypothesis gen_ok : WellBehaved gen.

Lemma invokeVisible_spec (nodes : list nat) (w : World) :
  (∀ m, m ∈ nodes → is_Some (heap (graph w) !! m)) →
  ∃ promises calls g',
    invokeVisible gen nodes w
    = (Done (promises, map (idOf (graph w)) (visibleOf (graph w) nodes)),
       mkWorld g' (filterText w) (trace w ++ calls))
    ∧ keeps (graph w) g'
    ∧ (∀ e, e ∈ calls →
         ∃ m r, e = ResolveNode m r ∧ m ∈ nodes ∧ hiddenOf (graph w) m = false)
    ∧ (∀ m, m ∈ nodes → hiddenOf (graph w) m = false → ∃ r, ResolveNode m r ∈ calls)
    ∧ (∀ p, p ∈ promises → p ∈ nodes)
    ∧ (∀ l, l ∉ nodes → errorOf g' l = errorOf (graph w) l)
    ∧ (NoDup nodes → ∀ m err, ResolveNode m (Throws err) ∈ calls →
         errorOf g' m = Some err ∧ m ∉ promises).
Proof.
  revert w. induction nodes as [|node rest IH]; intros w Hall.
  - exists [], [], (graph w). cbn [invokeVisible]. run.
    rewrite app_nil_r, world_eta.
    repeat split; try done; try apply keeps_refl; intros;
      match goal with H : _ ∈ [] |- _ => by apply elem_of_nil in H end.
  - assert (Hnode : is_Some (heap (graph w) !! node))
      by (apply Hall, elem_of_cons; by left).
    assert (Hrest : ∀ m, m ∈ rest → is_Some (heap (graph w) !! m))
      by (intros m Hm; apply Hall, elem_of_cons; by right).
    cbn [invokeVisible]. run. unfold visibleOf. cbn [List.filter]. fold (visibleOf (graph w) rest).
    destruct (hiddenOf (graph w) node) eqn:Hh; cbn [negb].
    + destruct (IH w Hrest) as (ps & calls & g' & Hrun & Hk & Hev & Hinv & Hps & Herr & Hthrow).
      exists ps, calls, g'. rewrite Hrun.
      split; [done|]. split; [done|]. split; [|split; [|split; [|split]]].
      * intros e He. destruct (Hev e He) as (m & r & -> & Hm & Hv).
        exists m, r. split; [done|]. split; [|done]. apply elem_of_cons. by right.
      * intros m Hm Hvis. apply elem_of_cons in Hm as [->|Hm]; [congruence|].
        by apply Hinv.
      * intros p Hp. apply elem_of_cons. right. by apply Hps.
      * intros l Hl. apply Herr. intros Hin. apply Hl, elem_of_cons. by right.
      * intros Hnd m err Hm. apply NoDup_cons in Hnd as [_ Hnd]. by apply Hthrow.
    + rewrite tryResolve_run.
      set (c := resolveNode gen node (graph w)).
      set (g2 := caught c.2 node c.1).
      assert (Hk2 : keeps (graph w) g2).
      { eapply keeps_trans; [apply (call_keeps gen gen_ok node (graph w))|].
        apply keeps_caught. }
      set (w2 := mkWorld g2 (filterText w) (trace w ++ [ResolveNode node c.2])).
      assert (Hrest2 : ∀ m, m ∈ rest → is_Some (heap (graph w2) !! m)).
      { intros m Hm. by apply (keeps_fields (graph w) g2 m Hk2), Hrest. }
      destruct (IH w2 Hrest2)
        as (ps & calls & g' & Hrun & Hk & Hev & Hinv & Hps & Herr & Hthrow).
      cbn [graph filterText trace] in *. rewrite Hrun. run.
      exists (match c.2 with Pending => node :: ps | Throws _ => ps end),
             (ResolveNode node c.2 :: calls), g'.
      split.
      { unfold w2. cbn [graph filterText trace app map].
        rewrite <- app_assoc. cbn [app].
        rewrite (visibleOf_ext (graph w) g2 rest Hk2 Hrest).
        destruct (keeps_fields (graph w) g2 node Hk2 Hnode) as (-> & _ & _).
        done. }
      split; [by eapply keeps_trans|].
      split; [|split; [|split; [|split]]].
      * intros e He. apply elem_of_cons in He as [->|He].
        -- exists node, c.2. split; [done|]. split; [|done]. apply elem_of_cons. by left.
        -- destruct (Hev e He) as (m & r & -> & Hm & Hv).
           exists m, r. split; [done|]. split; [apply elem_of_cons; by right|].
           change (graph w2) with g2 in Hv.
           destruct (keeps_fields (graph w) g2 m Hk2 (Hrest m Hm)) as (_ & <- & _).
           done.
      * intros m Hm Hvis. apply elem_of_cons in Hm as [->|Hm].
        -- exists c.2. apply elem_of_cons. by left.
        -- destruct (Hinv m Hm) as [r Hr].
           { change (graph w2) with g2.
             destruct (keeps_fields (graph w) g2 m Hk2 (Hrest m Hm)) as (_ & -> & _).
             done. }
           exists r. apply elem_of_cons. by right.
      * intros p Hp.
        assert (Hp' : p = node ∨ p ∈ ps).
        { destruct c.2; [by right|]. by apply elem_of_cons in Hp. }
        apply elem_of_cons. destruct Hp' as [->|Hp']; [by left|].
        right. by apply Hps.
      * intros l Hl.
        assert (Hl1 : l ≠ node) by (intros ->; apply Hl, elem_of_cons; by left).
        assert (Hl2 : l ∉ rest) by (intros Hin; apply Hl, elem_of_cons; by right).
        rewrite (Herr l Hl2). change (graph w2) with g2. unfold g2.
        rewrite errorOf_caught_other by done.
        apply (call_local gen gen_ok node (graph w) l Hl1).
      * intros Hnd m err Hm. apply NoDup_cons in Hnd as [Hnotin Hnd].
        apply elem_of_cons in Hm as [Hm|Hm].
        -- injection Hm as -> Hc. split.
           ++ rewrite (Herr node Hnotin). change (graph w2) with g2.
              unfold g2. rewrite <- Hc.
              apply errorOf_caught_throw.
              destruct (call_keeps gen gen_ok node (graph w) node) with (e := default (newNode "" None) (heap (graph w) !! node))
                as (e' & He' & _).
              { destruct Hnode as [e He]. by rewrite He. }
              by exists e'.
           ++ rewrite <- Hc. intros Hin. by apply Hnotin, Hps.
        -- destruct (Hthrow Hnd m err Hm) as [He Hnp]. split; [done|].
           destruct (Hev _ Hm) as (m' & r' & [= <- <-] & Hmrest & _).
           intros Hin.
           assert (Hin' : m = node ∨ m ∈ ps).
           { destruct c.2; [by right|]. by apply elem_of_cons in Hin. }
           destruct Hin' as [->|Hin']; [by apply Hnotin|by apply Hnp].
Qed.

End ResolveNodesFacts.

Section ResolveNodesTheorem.

Variable gen : Generator.
Variable hide : string → Graph → nat → bool.
Variable sched : World → list nat → nat.
Variable hasLoadIndicator : bool.

Lemma settleAll_frame (fuel : nat) (promises : list nat) (w : World) :
  WellBehaved gen →
  filterText (settleAll gen sched fuel promises w).2 = filterText w
  ∧ (∃ evs, trace (settleAll gen sched fuel promises w).2 = trace w ++ evs
            ∧ ∀ e, e ∈ evs → ∃ p s, e = Settle p s)
  ∧ (∀ l, l ∉ promises →
          errorOf (graph (settleAll gen sched fuel promises w).2) l = errorOf (graph w) l).
Proof.
  intros Hgen. revert promises w.
  assert (Hnil : ∀ w : World, ∃ evs : list Event,
            trace w = trace w ++ evs ∧ ∀ e, e ∈ evs → ∃ p s, e = Settle p s).
  { intros w. exists []. rewrite app_nil_r. split; [done|].
    intros e He. by apply elem_of_nil in He. }
  induction fuel as [|fuel IH]; intros promises w.
  - destruct promises; cbn [settleAll]; run; auto.
  - destruct promises as [|p0 ps]; [cbn [settleAll]; run; auto|].
    cbn [settleAll]. run.
    destruct (pick (sched w (p0 :: ps)) (p0 :: ps)) as [[p others]|] eqn:Hpick;
      [|run; auto].
    apply pick_perm in Hpick.
    unfold settle. run.
    pose proof (settle_local gen Hgen p (graph w)) as Hloc.
    destruct (settleNode gen p (graph w)) as [g1 r]. cbn [fst] in Hloc. run.
    assert (Hp : ∀ l, l ∉ p0 :: ps → l ≠ p ∧ l ∉ others).
    { intros l Hl. rewrite Hpick in Hl. split.
      - intros ->. apply Hl, elem_of_cons. by left.
      - intros Hin. apply Hl, elem_of_cons. by right. }
    destruct r as [result|reason]; run.
    + set (w1 := mkWorld g1 (filterText w) (trace w ++ [Settle p (Fulfilled result)])).
      destruct (IH others w1) as (Hft & (evs & Htr & Hevs) & Herr).
      destruct (settleAll gen sched fuel others w1) as [[rest|reason|] w3];
        cbn [fst snd] in *.
      all: split; [done|]; split.
      all: try (exists (Settle p (Fulfilled result) :: evs); split;
                [rewrite Htr; unfold w1; cbn [trace]; by rewrite <- app_assoc|];
                intros e He; apply elem_of_cons in He as [->|He]; eauto).
      all: intros l Hl; destruct (Hp l Hl) as [Hl1 Hl2];
        rewrite (Herr l Hl2); unfold w1; cbn [graph]; by apply Hloc.
    + split; [done|]. split.
      * exists [Settle p (Rejected reason)]. split; [done|].
        intros e He. apply elem_of_cons in He as [->|He]; [eauto|].
        by apply elem_of_nil in He.
      * intros l Hl. destruct (Hp l Hl) as [Hl1 Hl2]. by apply Hloc.
Qed.

Lemma resolveNodes_unfold (nodes : list nat) (w : World) :
  forallb (λ n, hiddenOf (graph w) n || resolvedOf (graph w) n) nodes = false →
  resolveNodes gen hide sched hasLoadIndicator nodes w
  = match invokeVisible gen nodes
            (mkWorld (graph w) (filterText w)
               (trace w ++ if hasLoadIndicator then [LoadIndicator true] else [])) with
    | (Done pc, w1) =>
        match settleAll gen sched (length pc.1) pc.1
                (mkWorld (graph w1) (filterText w1)
                   (trace w1 ++ [PromiseAll pc.1; Suspend])) with
        | (Done _, w3) =>
            center pc.2
              (mkWorld (refresh_graph hide (filterText w3) (graph w3)) (filterText w3)
                 (trace w3 ++ [Refresh; UpdateModel; Suspend]
                           ++ if hasLoadIndicator then [LoadIndicator false] else []))
        | (Reject r, w3) => (Reject r, w3)
        | (OutOfFuel, w3) => (OutOfFuel, w3)
        end
    | (Reject r, w1) => (Reject r, w1)
    | (OutOfFuel, w1) => (OutOfFuel, w1)
    end.
Proof.
  intros Hsc. unfold resolveNodes, awaitAll, refresh.
  unfold mbind at 1, M_bind at 1, bind at 1, get at 1. rewrite Hsc.
  unfold mbind at 1, M_bind at 1, bind at 1. rewrite when_emit_run.
  unfold mbind at 1, M_bind at 1, bind at 1.
  destruct (invokeVisible gen nodes _) as [[pc|r|] w1]; [|done|done].
  run. rewrite <- !app_assoc. cbn [app].
  destruct (settleAll gen sched (length pc.1) pc.1 _) as [[rest|r|] w3]; [|done|done].
  run. f_equal. f_equal.
  destruct hasLoadIndicator; run; rewrite <- ?app_assoc; cbn [app]; [done|].
  done.
Qed.

(** The run of [resolveNodes] on a batch with a call that raised. *)
Lemma resolveNodes_sync_failure_run
    (nodes : list nat) (w w' : World) (n : nat) (err : string) :
  WellBehaved gen →
  NoDup nodes →
  (∀ m, m ∈ nodes → is_Some (heap (graph w) !! m)) →
  resolveNodes gen hide sched hasLoadIndicator nodes w = (Done tt, w') →
  ResolveNode n (Throws err) ∈ since w w' →
  let center_ids := map (idOf (graph w)) (visibleOf (graph w) nodes) in
  n ∈ nodes ∧ hiddenOf (graph w) n = false
  ∧ errorOf (graph w') n = Some err
  ∧ (∀ m, m ∈ nodes → hiddenOf (graph w) m = false → ∃ r, ResolveNode m r ∈ since w w')
  ∧ idOf (graph w) n ∈ center_ids
  ∧ last (trace w')
    = Some (Dispatch (FitToScreenAction
              (List.filter (visibleNode (graph w')) center_ids) 20 1 true)).
Proof.
  intros Hgen Hnd Hall Hrun Hin center_ids.
  destruct (forallb (λ n, hiddenOf (graph w) n || resolvedOf (graph w) n) nodes) eqn:Hsc.
  { exfalso. unfold resolveNodes in Hrun.
    unfold mbind at 1, M_bind at 1, bind at 1, get at 1 in Hrun.
    rewrite Hsc, center_run in Hrun. injection Hrun as <-.
    erewrite since_app in Hin by (cbn [trace]; reflexivity).
    destruct (map _ nodes); [by apply elem_of_nil in Hin|].
    apply elem_of_cons in Hin as [Hin|Hin]; [done|]. by apply elem_of_nil in Hin. }
  rewrite (resolveNodes_unfold nodes w Hsc) in Hrun.
  set (w0 := mkWorld (graph w) (filterText w)
               (trace w ++ if hasLoadIndicator then [LoadIndicator true] else [])) in Hrun.
  destruct (invokeVisible_spec gen Hgen nodes w0 Hall)
    as (ps & calls & g1 & Hiv & Hk & Hev & Hinv & Hps & Herr & Hthrow).
  rewrite Hiv in Hrun. cbn [fst snd graph filterText trace] in Hrun.
  set (w2 := mkWorld g1 (filterText w0) ((trace w0 ++ calls) ++ [PromiseAll ps; Suspend]))
    in Hrun.
  destruct (settleAll_frame (length ps) ps w2 Hgen) as (Hft & (evs & Htr & Hevs) & Hfr).
  destruct (settleAll gen sched (length ps) ps w2) as [[rest|r|] w3];
    [|done|done]. cbn [fst snd] in *.
  rewrite center_run in Hrun. injection Hrun as <-.
  cbn [graph filterText trace].
  set (tail := [Refresh; UpdateModel; Suspend]
                 ++ if hasLoadIndicator then [LoadIndicator false] else []).
  set (fit := match center_ids with
              | [] => []
              | _ => [Dispatch (FitToScreenAction
                        (List.filter
                           (visibleNode (refresh_graph hide (filterText w3) (graph w3)))
                           center_ids) 20 1 true)]
              end).
  assert (Hsince :
    since w (mkWorld (refresh_graph hide (filterText w3) (graph w3)) (filterText w3)
               ((trace w3 ++ tail) ++ fit))
    = (if hasLoadIndicator then [LoadIndicator true] else [])
        ++ calls ++ [PromiseAll ps; Suspend] ++ evs ++ tail ++ fit).
  { apply since_app. cbn [trace]. rewrite Htr. unfold w2, w0. cbn [trace].
    by rewrite <- !app_assoc. }
  change (since w _) with
    (since w (mkWorld (refresh_graph hide (filterText w3) (graph w3)) (filterText w3)
                ((trace w3 ++ tail) ++ fit))) in Hin |- *.
  rewrite Hsince in Hin |- *. clear Hsince.
  assert (Hcall : ResolveNode n (Throws err) ∈ calls).
  { rewrite !elem_of_app in Hin.
    destruct Hin as [Hin|[Hin|[Hin|[Hin|[Hin|Hin]]]]]; [|done| | | |].
    - destruct hasLoadIndicator; [|by apply elem_of_nil in Hin].
      apply elem_of_cons in Hin as [Hin|Hin]; [done|]. by apply elem_of_nil in Hin.
    - apply elem_of_cons in Hin as [Hin|Hin]; [done|].
      apply elem_of_cons in Hin as [Hin|Hin]; [done|]. by apply elem_of_nil in Hin.
    - destruct (Hevs _ Hin) as (p & s & Hps'). done.
    - unfold tail in Hin. rewrite elem_of_app in Hin. destruct Hin as [Hin|Hin].
      + repeat (apply elem_of_cons in Hin as [Hin|Hin]; [done|]).
        by apply elem_of_nil in Hin.
      + destruct hasLoadIndicator; [|by apply elem_of_nil in Hin].
        apply elem_of_cons in Hin as [Hin|Hin]; [done|]. by apply elem_of_nil in Hin.
    - unfold fit in Hin. destruct center_ids; [by apply elem_of_nil in Hin|].
      apply elem_of_cons in Hin as [Hin|Hin]; [done|]. by apply elem_of_nil in Hin. }
  destruct (Hev _ Hcall) as (m' & r' & [= <- <-] & Hnin & Hnvis).
  destruct (Hthrow Hnd n err Hcall) as [Herrn Hnps].
  assert (Hcen : idOf (graph w) n ∈ center_ids).
  { unfold center_ids. apply list_elem_of_In, in_map, filter_In.
    split; [by apply list_elem_of_In|]. change (graph w0) with (graph w) in Hnvis.
    by rewrite Hnvis. }
  split; [done|]. split; [done|]. split; [|split; [|split; [done|]]].
  - rewrite errorOf_refresh, (Hfr n Hnps). exact Herrn.
  - intros m Hm Hvis. destruct (Hinv m Hm Hvis) as [r Hr]. exists r.
    rewrite !elem_of_app. auto.
  - destruct center_ids as [|i ids] eqn:Hc; [by apply elem_of_nil in Hcen|].
    unfold center_ids in Hc. rewrite Hc. apply last_snoc.
Qed.

(** C10, as the code has it: in a batch of distinct nodes whose fetches all
    fulfil, a node whose [resolveNode] call raised is a non-hidden node of
    the batch; its [error] holds the description of what was raised; every
    other non-hidden node of the batch was still invoked; its id is in the
    list that is handed to the concluding [center], the ids of all the
    nodes of the batch that were not hidden; and the concluding
    fit-to-screen dispatch, which is [center]'s filter of that list on the
    graph as refreshed, names the failed node exactly when the index still
    resolves its id to a node that is not hidden. *)
Theorem resolveNodes_sync_failure_is_centered
    (nodes : list nat) (w w' : World) (n : nat) (err : string) :
  WellBehaved gen →
  NoDup nodes →
  (∀ m, m ∈ nodes → is_Some (heap (graph w) !! m)) →
  resolveNodes gen hide sched hasLoadIndicator nodes w = (Done tt, w') →
  ResolveNode n (Throws err) ∈ since w w' →
  let center_ids := map (idOf (graph w)) (visibleOf (graph w) nodes) in
  n ∈ nodes ∧ hiddenOf (graph w) n = false
  ∧ errorOf (graph w') n = Some err
  ∧ (∀ m, m ∈ nodes → hiddenOf (graph w) m = false → ∃ r, ResolveNode m r ∈ since w w')
  ∧ idOf (graph w) n ∈ center_ids
  ∧ last (trace w')
    = Some (Dispatch (FitToScreenAction
              (List.filter (visibleNode (graph w')) center_ids) 20 1 true))
  ∧ (idOf (graph w) n ∈ List.filter (visibleNode (graph w')) center_ids
     ↔ ∃ e, getById (graph w') (idOf (graph w) n) = Some e
            ∧ type e = "node" ∧ hidden e = false).
Proof.
  intros Hgen Hnd Hall Hrun Hin center_ids.
  destruct (resolveNodes_sync_failure_run nodes w w' n err Hgen Hnd Hall Hrun Hin)
    as (H1 & H2 & H3 & H4 & H5 & H6).
  repeat (split; [assumption|]).
  rewrite elem_of_filter_visible. fold center_ids. split; [by intros [_ H]|by split].
Qed.

End ResolveNodesTheorem.

(** ** The registry-backed generator is well behaved *)

Lemma addElement_errorOf (e : Element) (g : Graph) (l : nat) :
  error e = None → errorOf (addElement e g).1 l = errorOf g l.
Proof.
  intros He. unfold errorOf, deref, addElement. cbn [fst heap].
  destruct (decide (l = fresh (dom (heap g)))) as [->|Hne].
  - rewrite lookup_insert_eq. cbn.
    assert (Hf : heap g !! fresh (dom (heap g)) = None)
      by (apply not_elem_of_dom, is_fresh).
    by rewrite Hf.
  - by rewrite lookup_insert_ne.
Qed.

Lemma addDependency_errorOf (source dep : string) (acc : Graph * list nat) (l : nat) :
  errorOf (addDependency source acc dep).1 l = errorOf acc.1 l.
Proof.
  unfold addDependency.
  assert (H1 : ∀ (g1 : Graph) (found : list nat),
            errorOf g1 l = errorOf acc.1 l →
            errorOf (match refById g1 (id (newEdge source dep)) with
                     | Some _ => (g1, found)
                     | None => ((addElement (newEdge source dep) g1).1, found)
                     end).1 l = errorOf acc.1 l).
  { intros g1 found Hg1. destruct (refById g1 _); [done|].
    cbn [fst]. by rewrite addElement_errorOf. }
  destruct (refById acc.1 dep).
  - destruct acc as [g found]. by apply H1.
  - destruct (addElement (newNode dep None) acc.1) as [g' l'] eqn:Hadd.
    apply H1. replace g' with (addElement (newNode dep None) acc.1).1 by (by rewrite Hadd).
    by apply addElement_errorOf.
Qed.

Lemma addDependencies_errorOf (source : string) (names : list string)
    (acc : Graph * list nat) (l : nat) :
  errorOf (foldl (addDependency source) acc names).1 l = errorOf acc.1 l.
Proof.
  revert acc. induction names as [|dep names IH]; intros acc; [done|].
  cbn [foldl]. by rewrite IH, addDependency_errorOf.
Qed.

Lemma npm_resolveNode_graph (registry : string → Fetch) (n : nat) (g : Graph) :
  (npm_resolveNode registry n g).1 = g.
Proof.
  unfold npm_resolveNode. destruct (heap g !! n) as [e|]; [|done].
  destruct (resolved e); [done|]. by destruct (registry (name e)).
Qed.

Lemma npm_well_behaved (registry : string → Fetch) : WellBehaved (npm registry).
Proof.
  split; cbn [resolveNode settleNode npm].
  - intros n g. rewrite npm_resolveNode_graph. apply keeps_refl.
  - intros n g l _. by rewrite npm_resolveNode_graph.
  - intros n g l Hne. unfold npm_settleNode.
    destruct (heap g !! n) as [e|]; [|done].
    destruct (resolved e); [done|].
    destruct (registry (name e)) as [names|reason|err]; [|done|done].
    pose proof (addDependencies_errorOf (name e) names (g, []) l) as Hfold.
    destruct (foldl (addDependency (name e)) (g, []) names) as [g' found].
    cbn [fst] in *. rewrite <- Hfold.
    unfold errorOf, deref, set_heap. cbn [heap]. by rewrite lookup_alter_ne.
Qed.

(** C10, on the batch [express], [bad name]: the request for the second
    cannot be set up. *)
Lemma resolveNodes_sync_failure_witness :
  1 ∈ [0; 1] ∧ hiddenOf (graph badNameWorld) 1 = false
  ∧ errorOf (graph badNameRun) 1 = Some "Error: invalid package name"
  ∧ (∀ m, m ∈ [0; 1] → hiddenOf (graph badNameWorld) m = false →
          ∃ r, ResolveNode m r ∈ since badNameWorld badNameRun)
  ∧ idOf (graph badNameWorld) 1
    ∈ map (idOf (graph badNameWorld)) (visibleOf (graph badNameWorld) [0; 1])
  ∧ last (trace badNameRun)
    = Some (Dispatch (FitToScreenAction
              (List.filter (visibleNode (graph badNameRun))
                 (map (idOf (graph badNameWorld)) (visibleOf (graph badNameWorld) [0; 1])))
              20 1 true))
  ∧ (idOf (graph badNameWorld) 1
     ∈ List.filter (visibleNode (graph badNameRun))
         (map (idOf (graph badNameWorld)) (visibleOf (graph badNameWorld) [0; 1]))
     ↔ ∃ e, getById (graph badNameRun) (idOf (graph badNameWorld) 1) = Some e
            ∧ type e = "node" ∧ hidden e = false).
Proof.
  apply (resolveNodes_sync_failure_is_centered (npm flaky) nameFilter fifo true
           [0; 1] badNameWorld badNameRun 1 "Error: invalid package name").
  - apply npm_well_behaved.
  - apply NoDup_cons. split; [|apply NoDup_singleton].
    intros H. apply elem_of_cons in H as [H|H]; [discriminate H|].
    by apply elem_of_nil in H.
  - intros m Hm. apply elem_of_cons in Hm as [->|Hm].
    + vm_compute. eauto.
    + apply elem_of_cons in Hm as [->|Hm]; [vm_compute; eauto|].
      by apply elem_of_nil in Hm.
  - vm_compute. reflexivity.
  - vm_compute. apply elem_of_cons. right. apply elem_of_cons. right.
    apply elem_of_cons. by left.
Defined.

(** C10 as stated fails: the filter pass of [resolveNodes] runs before the
    concluding [center].  With the filter text [exp] set, a package created
    afterwards is not hidden yet when it is resolved with [express]; its
    request cannot be set up, its [error] is recorded, the refresh hides
    it, and the concluding fit-to-screen dispatch names [express] alone. *)
Lemma sync_failure_hidden_by_refresh :
  ¬ (∀ (gen : Generator) (hide : string → Graph → nat → bool)
       (sched : World → list nat → nat) (hasLoadIndicator : bool)
       (nodes : list nat) (w w' : World) (n : nat) (err : string),
       WellBehaved gen →
       NoDup nodes →
       (∀ m, m ∈ nodes → is_Some (heap (graph w) !! m)) →
       hiddenOf (graph w) n = false →
       resolveNodes gen hide sched hasLoadIndicator nodes w = (Done tt, w') →
       ResolveNode n (Throws err) ∈ since w w' →
       ∃ ids, last (trace w') = Some (Dispatch (FitToScreenAction ids 20 1 true))
              ∧ idOf (graph w) n ∈ ids).
Proof.
  intros H.
  destruct (H (npm flaky) nameFilter fifo true [0; 1] filteredWorld
              (after (resolveNodes (npm flaky) nameFilter fifo true [0; 1]) filteredWorld)
              1 "Error: invalid package name") as (ids & Hlast & Hin).
  - apply npm_well_behaved.
  - apply NoDup_cons. split; [|apply NoDup_singleton].
    intros Hm. apply elem_of_cons in Hm as [Hm|Hm]; [discriminate Hm|].
    by apply elem_of_nil in Hm.
  - intros m Hm. apply elem_of_cons in Hm as [->|Hm].
    + vm_compute. eauto.
    + apply elem_of_cons in Hm as [->|Hm]; [vm_compute; eauto|].
      by apply elem_of_nil in Hm.
  - vm_compute. reflexivity.
  - vm_compute. reflexivity.
  - vm_compute. apply elem_of_cons. right. apply elem_of_cons. right.
    apply elem_of_cons. by left.
  - vm_compute in Hlast. injection Hlast as <-.
    vm_compute in Hin. apply elem_of_cons in Hin as [Hin|Hin]; [discriminate Hin|].
    by apply elem_of_nil in Hin.
Qed.

Example filtered_run_trace :
  since filteredWorld
        (after (resolveNodes (npm flaky) nameFilter fifo true [0; 1]) filteredWorld)
  = [LoadIndicator true; ResolveNode 0 Pending;
     ResolveNode 1 (Throws "Error: invalid package name");
     PromiseAll [0]; Suspend; Settle 0 (Fulfilled [2]);
     Refresh; UpdateModel; Suspend; LoadIndicator false;
     Dispatch (FitToScreenAction ["express"] 20 1 true)]
  ∧ errorOf (graph (after (resolveNodes (npm flaky) nameFilter fifo true [0; 1])
                      filteredWorld)) 1
    = Some "Error: invalid package name".
Proof. vm_compute. split; reflexivity. Qed.

Example badNameRun_trace :
  since badNameWorld badNameRun
  = [LoadIndicator true; ResolveNode 0 Pending;
     ResolveNode 1 (Throws "Error: invalid package name");
     PromiseAll [0]; Suspend; Settle 0 (Fulfilled [2]);
     Refresh; UpdateModel; Suspend; LoadIndicator false;
     Dispatch (FitToScreenAction ["express"; "bad name"] 20 1 true)].
Proof. vm_compute. reflexivity. Qed.

(** ** The waves of [resolveGraph] *)

Section WaveFacts.

Variable gen : Generator.
Variable sched : World → list nat → nat.

Lemma invokeFrontier_calls (nodes : list nat) (w : World) :
  ∃ calls g',
    invokeFrontier gen nodes w
    = (Done (pendingOf calls), mkWorld g' (filterText w) (trace w ++ calls))
    ∧ CallsOf nodes calls.
Proof.
  revert w. induction nodes as [|node rest IH]; intros w.
  - exists [], (graph w). cbn [invokeFrontier]. run.
    rewrite app_nil_r, world_eta. split; [done|]. constructor.
  - cbn [invokeFrontier]. run. rewrite tryResolve_run.
    set (c := resolveNode gen node (graph w)).
    set (w2 := mkWorld (caught c.2 node c.1) (filterText w)
                 (trace w ++ [ResolveNode node c.2])).
    destruct (IH w2) as (calls & g' & Hrun & Hcalls). rewrite Hrun.
    exists (ResolveNode node c.2 :: calls), g'. split.
    + unfold w2. cbn [filterText trace]. rewrite <- app_assoc. cbn [app].
      unfold pendingOf. cbn [omap]. by destruct c.2.
    + constructor; [eauto|done].
Qed.

Lemma settleAll_settles (n : nat) (promises : list nat) (w : World) :
  length promises = n →
  ∃ settles,
    trace (settleAll gen sched n promises w).2 = trace w ++ settles
    ∧ Settles promises settles (settleAll gen sched n promises w).1.
Proof.
  revert promises w. induction n as [|n IH]; intros promises w Hlen.
  - destruct promises; [|done]. exists []. cbn [settleAll]. run.
    rewrite app_nil_r. split; [done|]. by apply (Settles_all [] []).
  - destruct promises as [|p0 ps]; [done|]. cbn [settleAll]. run.
    destruct (pick (sched w (p0 :: ps)) (p0 :: ps)) as [[p others]|] eqn:Hpick;
      [|by apply pick_none in Hpick].
    apply pick_perm in Hpick.
    assert (Hlen' : length others = n).
    { apply Permutation_length in Hpick. cbn in *. lia. }
    unfold settle. run.
    destruct (settleNode gen p (graph w)) as [g1 [result|reason]]; run.
    + set (w1 := mkWorld g1 (filterText w) (trace w ++ [Settle p (Fulfilled result)])).
      destruct (IH others w1 Hlen') as (settles & Htr & Hs).
      destruct (settleAll gen sched n others w1) as [[rest|reason|] w3];
        cbn [fst snd] in *.
      * inversion Hs as [ps' Hperm Hev Hres|]; subst.
        exists (fulfilments ((p, result) :: ps')). split.
        -- rewrite Htr. unfold w1. cbn [trace]. by rewrite <- app_assoc.
        -- apply (Settles_all _ ((p, result) :: ps')). cbn [map fst].
           rewrite Hpick. by constructor.
      * inversion Hs as [|ps' q reason' Hsub Hev Hres]; subst.
        exists (fulfilments ((p, result) :: ps') ++ [Settle q (Rejected reason)]). split.
        -- rewrite Htr. unfold w1. cbn [trace]. by rewrite <- app_assoc.
        -- apply (Settles_rejected _ ((p, result) :: ps')). cbn [map fst].
           rewrite Hpick. rewrite (Permutation_swap p q). by constructor.
      * inversion Hs.
    + exists [Settle p (Rejected reason)]. split; [done|].
      apply (Settles_rejected _ [] p reason). cbn [map].
      rewrite Hpick. constructor. apply submseteq_nil_l.
Qed.

Lemma resolveWaves_waves (fuel : nat) (nodes : list nat) (w : World) :
  ∃ evs,
    trace (resolveWaves gen sched fuel nodes w).2 = trace w ++ evs
    ∧ Waves nodes evs (resolveWaves gen sched fuel nodes w).1.
Proof.
  revert nodes w. induction fuel as [|fuel IH]; intros nodes w.
  - exists []. rewrite app_nil_r.
    destruct nodes; cbn [resolveWaves]; run; split; try done; by constructor.
  - destruct nodes as [|node rest].
    { exists []. rewrite app_nil_r. cbn [resolveWaves]. run. split; [done|constructor]. }
    cbn [resolveWaves]. unfold awaitAll. run.
    destruct (invokeFrontier_calls (node :: rest) w) as (calls & g' & Hrun & Hcalls).
    rewrite Hrun. run.
    set (w2 := mkWorld g' (filterText w)
                 (((trace w ++ calls) ++ [PromiseAll (pendingOf calls)]) ++ [Suspend])).
    destruct (settleAll_settles (length (pendingOf calls)) (pendingOf calls) w2 eq_refl)
      as (settles & Htr & Hs).
    destruct (settleAll gen sched (length (pendingOf calls)) (pendingOf calls) w2)
      as [[newNodes|reason|] w3]; cbn [fst snd] in *.
    + destruct (IH newNodes w3) as (evs & Htr' & Hw).
      exists (calls ++ [PromiseAll (pendingOf calls); Suspend] ++ settles ++ evs). split.
      * rewrite Htr', Htr. unfold w2. cbn [trace]. by rewrite <- !app_assoc.
      * by eapply Waves_next.
    + exists (calls ++ [PromiseAll (pendingOf calls); Suspend] ++ settles). split.
      * rewrite Htr. unfold w2. cbn [trace]. by rewrite <- !app_assoc.
      * by apply Waves_rejected.
    + inversion Hs.
Qed.

Lemma settleAll_singleFirst (fuel : nat) (promises : list nat) (w : World) :
  settleAll gen (singleFirst sched) fuel promises w = settleAll gen sched fuel promises w.
Proof.
  revert promises w. induction fuel as [|fuel IH]; intros promises w; [done|].
  destruct promises as [|p ps]; [done|]. cbn [settleAll]. run.
  assert (Hpick : pick (singleFirst sched w (p :: ps)) (p :: ps)
                  = pick (sched w (p :: ps)) (p :: ps)).
  { destruct ps as [|q ps]; [|reflexivity]. cbn [singleFirst].
    by destruct (sched w [p]) as [|k]. }
  rewrite Hpick. clear Hpick.
  destruct (pick (sched w (p :: ps)) (p :: ps)) as [[p' others]|]; [|reflexivity].
  unfold settle. run.
  destruct (settleNode gen p' (graph w)) as [g1 [result|reason]]; run; [|reflexivity].
  by rewrite IH.
Qed.

Lemma resolveWaves_singleFirst (fuel : nat) (nodes : list nat) (w : World) :
  resolveWaves gen (singleFirst sched) fuel nodes w = resolveWaves gen sched fuel nodes w.
Proof.
  revert nodes w. induction fuel as [|fuel IH]; intros nodes w; [done|].
  destruct nodes as [|node rest]; [done|]. cbn [resolveWaves]. unfold awaitAll. run.
  destruct (invokeFrontier gen (node :: rest) w) as [[ps|r|] w1]; [|done|done].
  run. rewrite settleAll_singleFirst.
  destruct (settleAll gen sched _ _ _) as [[newNodes|r|] w3]; [|done|done].
  apply IH.
Qed.

Lemma resolveWaves_more_fuel (fuel k : nat) (nodes : list nat) (w : World) :
  (resolveWaves gen sched fuel nodes w).1 ≠ OutOfFuel →
  resolveWaves gen sched (fuel + k) nodes w = resolveWaves gen sched fuel nodes w.
Proof.
  revert nodes w. induction fuel as [|fuel IH]; intros nodes w Hfin.
  - destruct nodes; [by destruct k|]. cbn [resolveWaves] in Hfin. by run_in Hfin.
  - destruct nodes as [|node rest]; [done|].
    cbn [resolveWaves Nat.add] in *. unfold awaitAll in *. run. run_in Hfin.
    destruct (invokeFrontier gen (node :: rest) w) as [[ps|r|] w1]; [|done|done].
    run. run_in Hfin.
    destruct (settleAll gen sched _ _ _) as [[newNodes|r|] w3]; [|done|done].
    by apply IH.
Qed.

End WaveFacts.

Section ResolveGraphFacts.

Variable gen : Generator.
Variable hide : string → Graph → nat → bool.
Variable sched : World → list nat → nat.
Variable hasLoadIndicator : bool.

Lemma resolveGraph_unfold (fuel : nat) (w : World) :
  resolveGraph gen hide sched hasLoadIndicator fuel w
  = match resolveWaves gen sched fuel (unresolvedChildren (graph w))
            (mkWorld (graph w) (filterText w)
               (trace w ++ if hasLoadIndicator then [LoadIndicator true] else [])) with
    | (Done _, w1) =>
        center (visibleChildIds (refresh_graph hide (filterText w1) (graph w1)))
          (mkWorld (refresh_graph hide (filterText w1) (graph w1)) (filterText w1)
             (trace w1 ++ [Refresh; UpdateModel; Suspend]
                       ++ if hasLoadIndicator then [LoadIndicator false] else []))
    | (Reject r, w1) => (Reject r, w1)
    | (OutOfFuel, w1) => (OutOfFuel, w1)
    end.
Proof.
  unfold resolveGraph, refresh.
  unfold mbind at 1, M_bind at 1, bind at 1. rewrite when_emit_run.
  unfold mbind at 1, M_bind at 1, bind at 1, get at 1. cbn [graph].
  unfold mbind at 1, M_bind at 1, bind at 1.
  destruct (resolveWaves gen sched fuel _ _) as [[u|r|] w1]; [|done|done].
  run. f_equal.
  destruct hasLoadIndicator; run; rewrite <- ?app_assoc; cbn [app]; done.
Qed.

Lemma resolveGraph_shape (fuel : nat) (w : World) :
  ∃ evs tail,
    since w (after (resolveGraph gen hide sched hasLoadIndicator fuel) w)
    = (if hasLoadIndicator then [LoadIndicator true] else []) ++ evs ++ tail
    ∧ Waves (unresolvedChildren (graph w)) evs
            (resolveGraph gen hide sched hasLoadIndicator fuel w).1
    ∧ List.filter isFetch tail = [].
Proof.
  unfold after. rewrite resolveGraph_unfold.
  set (w0 := mkWorld (graph w) (filterText w)
               (trace w ++ if hasLoadIndicator then [LoadIndicator true] else [])).
  destruct (resolveWaves_waves gen sched fuel (unresolvedChildren (graph w)) w0)
    as (evs & Htr & Hw).
  destruct (resolveWaves gen sched fuel (unresolvedChildren (graph w)) w0)
    as [[[]|r|] w1]; cbn [fst snd] in *.
  - rewrite center_run. cbn [fst snd].
    exists evs, ([Refresh; UpdateModel; Suspend]
                 ++ (if hasLoadIndicator then [LoadIndicator false] else [])
                 ++ match visibleChildIds (refresh_graph hide (filterText w1) (graph w1)) with
                    | [] => []
                    | _ => [Dispatch (FitToScreenAction
                              (List.filter
                                 (visibleNode (refresh_graph hide (filterText w1) (graph w1)))
                                 (visibleChildIds
                                    (refresh_graph hide (filterText w1) (graph w1))))
                              20 1 true)]
                    end).
    split; [|split; [done|]].
    + apply since_app. cbn [trace]. rewrite Htr. unfold w0. cbn [trace].
      by rewrite <- !app_assoc.
    + destruct hasLoadIndicator, (visibleChildIds _); reflexivity.
  - exists evs, []. split; [|done].
    apply since_app. rewrite Htr. unfold w0. cbn [trace].
    by rewrite app_nil_r, <- app_assoc.
  - exists evs, []. split; [|done].
    apply since_app. rewrite Htr. unfold w0. cbn [trace].
    by rewrite app_nil_r, <- app_assoc.
Qed.

Lemma resolveGraph_more_fuel (fuel k : nat) (w : World) :
  (resolveGraph gen hide sched hasLoadIndicator fuel w).1 ≠ OutOfFuel →
  resolveGraph gen hide sched hasLoadIndicator (fuel + k) w
  = resolveGraph gen hide sched hasLoadIndicator fuel w.
Proof.
  rewrite !resolveGraph_unfold. intros Hfin.
  rewrite resolveWaves_more_fuel; [done|].
  intros Hout. apply Hfin.
  destruct (resolveWaves gen sched fuel _ _) as [[u|r|] w1]; done.
Qed.

End ResolveGraphFacts.

Lemma resolveGraph_singleFirst (gen : Generator) (hide : string → Graph → nat → bool)
    (sched : World → list nat → nat) (hasLoadIndicator : bool) (fuel : nat) (w : World) :
  resolveGraph gen hide (singleFirst sched) hasLoadIndicator fuel w
  = resolveGraph gen hide sched hasLoadIndicator fuel w.
Proof. rewrite !resolveGraph_unfold. by rewrite resolveWaves_singleFirst. Qed.

(** C2, as the code has it: [resolveGraph] runs its waves one after the
    other, each wave making its calls, giving up control and seeing all its
    promises settled before the next wave starts, on exactly the nodes those
    settlements returned, the first wave starting from the unresolved nodes
    of the model; no fetch follows the last wave.  On the chain A -> B -> C
    with A in the model it completes, in whatever order promises settle and
    with any fuel from 3 on, after exactly 3 waves (of A, of B, and of C,
    which returns nothing), leaving no unresolved node. *)
Theorem resolveGraph_waves :
  (∀ gen hide sched hasLoadIndicator fuel w,
     ∃ evs tail,
       since w (after (resolveGraph gen hide sched hasLoadIndicator fuel) w)
       = (if hasLoadIndicator then [LoadIndicator true] else []) ++ evs ++ tail
       ∧ Waves (unresolvedChildren (graph w)) evs
               (resolveGraph gen hide sched hasLoadIndicator fuel w).1
       ∧ List.filter isFetch tail = [])
  ∧ (∀ sched k,
       (resolveGraph (npm chain) nameFilter sched true (3 + k) chainWorld).1 = Done tt
       ∧ since chainWorld
               (after (resolveGraph (npm chain) nameFilter sched true (3 + k)) chainWorld)
         = [LoadIndicator true;
            ResolveNode 0 Pending; PromiseAll [0]; Suspend; Settle 0 (Fulfilled [1]);
            ResolveNode 1 Pending; PromiseAll [1]; Suspend; Settle 1 (Fulfilled [3]);
            ResolveNode 3 Pending; PromiseAll [3]; Suspend; Settle 3 (Fulfilled []);
            Refresh; UpdateModel; Suspend; LoadIndicator false;
            Dispatch (FitToScreenAction ["A"; "B"; "C"] 20 1 true)]
       ∧ waves (since chainWorld
                  (after (resolveGraph (npm chain) nameFilter sched true (3 + k)) chainWorld))
         = 3
       ∧ unresolvedChildren
           (graph (after (resolveGraph (npm chain) nameFilter sched true (3 + k)) chainWorld))
         = []).
Proof.
  split; [intros; apply resolveGraph_shape|].
  intros sched k. unfold after.
  rewrite <- resolveGraph_singleFirst.
  rewrite resolveGraph_more_fuel by (vm_compute; discriminate).
  vm_compute. repeat split; reflexivity.
Qed.

(** C2 as stated fails on its own example: the run takes three waves, not
    two; with room for two waves only the loop is cut short, and after two
    waves C is still unresolved. *)
Lemma chain_not_resolved_in_two_waves :
  waves (since chainWorld
           (after (resolveGraph (npm chain) nameFilter fifo true 3) chainWorld)) ≠ 2
  ∧ (resolveGraph (npm chain) nameFilter fifo true 2 chainWorld).1 = OutOfFuel
  ∧ unresolvedChildren (graph (after (resolveWaves (npm chain) fifo 2 [0]) chainWorld))
    = [3].
Proof.
  split; [vm_compute; discriminate|]. split; vm_compute; reflexivity.
Qed.

(** The nodes that [handleSelect] hands to [resolveNodes] are objects of the
    graph. *)
Lemma selectedNodes_allocated (g : Graph) (ids : list string) (m : nat) :
  m ∈ selectedNodes g ids → is_Some (heap g !! m).
Proof.
  unfold selectedNodes. intros Hm.
  apply list_elem_of_omap in Hm as (i & _ & Hi).
  destruct (index g !! i) as [l|]; [|done]. cbn in Hi.
  destruct (heap g !! l) as [e|] eqn:He; [|done]. cbn in Hi.
  destruct (String.eqb (type e) "node"); [|done].
  injection Hi as <-. by exists e.
Qed.

(** ** The theorems at sample inputs *)

(** C9 on the sample graph. *)
Lemma select_center_frame_witness :
  graph (after (select ["hiddenNode1"; "edge1"; "nodeA"]) sampleWorld) = graph sampleWorld
  ∧ filterText (after (select ["hiddenNode1"; "edge1"; "nodeA"]) sampleWorld)
    = filterText sampleWorld
  ∧ graph (after (center ["hiddenNode1"; "edge1"; "nodeA"]) sampleWorld) = graph sampleWorld
  ∧ filterText (after (center ["hiddenNode1"; "edge1"; "nodeA"]) sampleWorld)
    = filterText sampleWorld
  ∧ (∀ e, e ∈ since sampleWorld (after (select ["hiddenNode1"; "edge1"; "nodeA"]) sampleWorld)
              ++ since sampleWorld (after (center ["hiddenNode1"; "edge1"; "nodeA"]) sampleWorld)
          → ∃ a, e = Dispatch a).
Proof. exact (select_center_frame ["hiddenNode1"; "edge1"; "nodeA"] sampleWorld). Defined.

(** C4 on the sample graph. *)
Lemma select_dispatches_filtered_witness :
  select ["hiddenNode1"; "edge1"; "nodeA"] sampleWorld
  = (Done tt,
     mkWorld (graph sampleWorld) (filterText sampleWorld)
       (trace sampleWorld
        ++ [Dispatch (SelectAction
              (List.filter (visibleNode (graph sampleWorld))
                 ["hiddenNode1"; "edge1"; "nodeA"]))]))
  ∧ ∀ i, i ∈ List.filter (visibleNode (graph sampleWorld)) ["hiddenNode1"; "edge1"; "nodeA"]
         ↔ i ∈ ["hiddenNode1"; "edge1"; "nodeA"]
           ∧ ∃ e, getById (graph sampleWorld) i = Some e
                  ∧ type e = "node" ∧ hidden e = false.
Proof. exact (select_dispatches_filtered ["hiddenNode1"; "edge1"; "nodeA"] sampleWorld). Defined.

(** C5 on the resolved chain: A and B are resolved. *)
Lemma resolveNodes_short_circuit_witness :
  resolveNodes (npm chain) nameFilter fifo true [0; 1] resolvedWorld
  = center (map (idOf (graph resolvedWorld)) [0; 1]) resolvedWorld
  ∧ center (map (idOf (graph resolvedWorld)) [0; 1]) resolvedWorld
    = (Done tt,
       mkWorld (graph resolvedWorld) (filterText resolvedWorld)
         (trace resolvedWorld
          ++ [Dispatch (FitToScreenAction
                (List.filter (visibleNode (graph resolvedWorld))
                   (map (idOf (graph resolvedWorld)) [0; 1])) 20 1 true)])).
Proof.
  apply (resolveNodes_short_circuit (npm chain) nameFilter fifo true [0; 1] resolvedWorld).
  - discriminate.
  - intros n Hn. right.
    apply elem_of_cons in Hn as [->|Hn]; [vm_compute; reflexivity|].
    apply elem_of_cons in Hn as [->|Hn]; [vm_compute; reflexivity|].
    by apply elem_of_nil in Hn.
Defined.

Example resolveNodes_short_circuit_sample :
  since resolvedWorld
        (after (resolveNodes (npm chain) nameFilter fifo true [0; 1]) resolvedWorld)
  = [Dispatch (FitToScreenAction ["A"; "B"] 20 1 true)].
Proof. vm_compute. reflexivity. Qed.

(** C6 on the sample graph, filtered by the text [node]: of the two nodes
    only [nodeA] is captured, and the fit-to-screen dispatch names it. *)
Lemma filter_sequence_witness :
  consistent (graph sampleWorld) = true
  ∧ visibleChildIds (refresh_graph nameFilter "node" (graph sampleWorld))
    = omap (λ c, heap (graph sampleWorld) !! c ≫= λ e,
                 if isNode e && negb (nameFilter "node" (graph sampleWorld) c)
                 then Some (id e) else None)
           (children (graph sampleWorld))
  ∧ List.filter (visibleNode (refresh_graph nameFilter "node" (graph sampleWorld)))
                (visibleChildIds (refresh_graph nameFilter "node" (graph sampleWorld)))
    = visibleChildIds (refresh_graph nameFilter "node" (graph sampleWorld)).
Proof.
  assert (H : consistent (graph sampleWorld) = true) by (vm_compute; reflexivity).
  split; [exact H|]. split.
  - exact (proj1 (proj2 (proj2 (filter_sequence nameFilter "node" sampleWorld)))).
  - exact (proj2 (proj2 (proj2 (proj2 (filter_sequence nameFilter "node" sampleWorld)))) H).
Defined.

Example filter_captures_sample :
  visibleChildIds (refresh_graph nameFilter "node" (graph sampleWorld)) = ["nodeA"].
Proof. vm_compute. reflexivity. Qed.

Example filter_sample :
  since sampleWorld (after (filter nameFilter "node") sampleWorld)
  = [SetFilter "node"; Refresh; Dispatch (SelectAllAction false); UpdateModel; Suspend;
     Dispatch (FitToScreenAction ["nodeA"] 20 1 true)].
Proof. vm_compute. reflexivity. Qed.

(** C7 on the sample graph. *)
Lemma clear_empties_witness :
  indexCovered (graph sampleWorld) = true
  ∧ (clear sampleWorld).1 = Done tt
  ∧ index (graph (after clear sampleWorld)) = ∅
  ∧ all (graph (after clear sampleWorld)) = []
  ∧ children (graph (after clear sampleWorld)) = []
  ∧ filterText (after clear sampleWorld) = ""
  ∧ since sampleWorld (after clear sampleWorld) = [SetFilter ""; UpdateModel]
  ∧ Suspend ∉ since sampleWorld (after clear sampleWorld).
Proof.
  assert (H : indexCovered (graph sampleWorld) = true) by (vm_compute; reflexivity).
  split; [exact H|]. exact (clear_empties sampleWorld H).
Defined.

(** C8's two outcomes on the sample graph; the id that is gone is skipped. *)
Example handleComputedBounds_fulfilled :
  since sampleWorld (after (handleComputedBounds elkOk sampleBounds) sampleWorld)
  = [Layout; Suspend; DoSubmitModel true]
  ∧ (position <$> getById (graph (after (handleComputedBounds elkOk sampleBounds) sampleWorld))
                          "nodeA")
    = Some (Some (mkPoint 10 20))
  ∧ (alignment <$> getById (graph (after (handleComputedBounds elkOk sampleBounds) sampleWorld))
                           "edge1")
    = Some (Some (mkPoint 3 4)).
Proof. vm_compute. repeat split; reflexivity. Qed.

Example handleComputedBounds_rejected :
  since sampleWorld (after (handleComputedBounds elkBroken sampleBounds) sampleWorld)
  = [Layout; Suspend; LogError "Error: layout failed"; DoSubmitModel true].
Proof. vm_compute. reflexivity. Qed.

(** The batch of C1 when the rejection comes first: [express] has not even
    settled when [resolveNodes] is rejected. *)
Example resolveNodes_rejection_first :
  (resolveNodes (npm flaky) nameFilter lifo true [0; 1] packagesWorld).1
  = Reject "Error: 404"
  ∧ since packagesWorld
          (after (resolveNodes (npm flaky) nameFilter lifo true [0; 1]) packagesWorld)
    = [LoadIndicator true; ResolveNode 0 Pending; ResolveNode 1 Pending;
       PromiseAll [0; 1]; Suspend; Settle 1 (Rejected "Error: 404")].
Proof. vm_compute. split; reflexivity. Qed.

(** A synchronous failure alone is contained, as the [catch] intends. *)
Example resolveNodes_all_fulfilled :
  (resolveNodes (npm flaky) nameFilter fifo true [0; 1] badNameWorld).1 = Done tt.
Proof. vm_compute. reflexivity. Qed.

(** * Further properties *)

(** ** Runs of [resolveNodes] *)

Lemma Settles_events (promises : list nat) (settles : list Event) (res : Res (list nat)) :
  Settles promises settles res → ∀ e, e ∈ settles → ∃ p s, e = Settle p s.
Proof.
  intros Hs e He. destruct Hs as [ps Hperm|ps p reason Hsub].
  - unfold fulfilments in He. apply list_elem_of_In, in_map_iff in He as (pr & <- & _). eauto.
  - apply elem_of_app in He as [He|He].
    + unfold fulfilments in He. apply list_elem_of_In, in_map_iff in He as (pr & <- & _). eauto.
    + apply elem_of_cons in He as [->|He]; [eauto|]. by apply elem_of_nil in He.
Qed.

Lemma Settles_rejected_event (promises : list nat) (settles : list Event)
    (res : Res (list nat)) (p : nat) (reason : string) :
  Settles promises settles res →
  Settle p (Rejected reason) ∈ settles →
  res = Reject reason ∧ ∃ ps, settles = fulfilments ps ++ [Settle p (Rejected reason)].
Proof.
  intros Hs Hin.
  assert (Hful : ∀ ps, Settle p (Rejected reason) ∉ fulfilments ps).
  { intros ps H. unfold fulfilments in H.
    by apply list_elem_of_In, in_map_iff in H as (pr & ? & _). }
  destruct Hs as [ps Hperm|ps q reason' Hsub].
  - by destruct (Hful ps).
  - apply elem_of_app in Hin as [Hin|Hin]; [by destruct (Hful ps)|].
    apply elem_of_cons in Hin as [[= <- <-]|Hin]; [eauto|]. by apply elem_of_nil in Hin.
Qed.

Lemma filter_none {A} (p : A → bool) (l : list A) :
  (∀ x, x ∈ l → p x = false) → List.filter p l = [].
Proof.
  induction l as [|x l IH]; intros H; [done|]. cbn.
  rewrite (H x) by (apply elem_of_cons; by left).
  apply IH. intros y Hy. apply H, elem_of_cons. by right.
Qed.

Section ResolveNodesRuns.

Variable gen : Generator.
Variable hide : string → Graph → nat → bool.
Variable sched : World → list nat → nat.
Variable hasLoadIndicator : bool.

Lemma invokeVisible_calls (nodes : list nat) (w : World) :
  ∃ calls ids g',
    invokeVisible gen nodes w
    = (Done (pendingOf calls, ids), mkWorld g' (filterText w) (trace w ++ calls))
    ∧ ∀ e, e ∈ calls → ∃ m r, e = ResolveNode m r ∧ m ∈ nodes.
Proof.
  revert w. induction nodes as [|node rest IH]; intros w.
  - exists [], [], (graph w). cbn [invokeVisible]. run.
    rewrite app_nil_r, world_eta. split; [done|].
    intros e He. by apply elem_of_nil in He.
  - cbn [invokeVisible]. run.
    destruct (hiddenOf (graph w) node); cbn [negb].
    + destruct (IH w) as (calls & ids & g' & Hrun & Hev).
      exists calls, ids, g'. split; [done|].
      intros e He. destruct (Hev e He) as (m & r & -> & Hm).
      exists m, r. split; [done|]. apply elem_of_cons. by right.
    + rewrite tryResolve_run.
      set (c := resolveNode gen node (graph w)).
      set (w2 := mkWorld (caught c.2 node c.1) (filterText w)
                   (trace w ++ [ResolveNode node c.2])).
      destruct (IH w2) as (calls & ids & g' & Hrun & Hev).
      cbn [graph filterText trace]. fold w2. rewrite Hrun. run.
      exists (ResolveNode node c.2 :: calls), (idOf (graph w2) node :: ids), g'. split.
      * unfold w2. cbn [filterText trace]. rewrite <- app_assoc. cbn [app].
        unfold pendingOf. cbn [omap]. by destruct c.2.
      * intros e He. apply elem_of_cons in He as [->|He].
        -- exists node, c.2. split; [done|]. apply elem_of_cons. by left.
        -- destruct (Hev e He) as (m & r & -> & Hm).
           exists m, r. split; [done|]. apply elem_of_cons. by right.
Qed.

(** A run of [resolveNodes] that is not short-circuited: the calls, the
    join, the settlements and, when all fulfil, the wrap-up. *)
Lemma resolveNodes_trace (nodes : list nat) (w : World) :
  forallb (λ n, hiddenOf (graph w) n || resolvedOf (graph w) n) nodes = false →
  ∃ calls settles res wrap,
    since w (after (resolveNodes gen hide sched hasLoadIndicator nodes) w)
    = (if hasLoadIndicator then [LoadIndicator true] else [])
        ++ calls ++ [PromiseAll (pendingOf calls); Suspend] ++ settles ++ wrap
    ∧ (∀ e, e ∈ calls → ∃ m r, e = ResolveNode m r ∧ m ∈ nodes)
    ∧ Settles (pendingOf calls) settles res
    ∧ match res with
      | Done _ =>
          (resolveNodes gen hide sched hasLoadIndicator nodes w).1 = Done tt
          ∧ ∃ ids,
              wrap = [Refresh; UpdateModel; Suspend]
                     ++ (if hasLoadIndicator then [LoadIndicator false] else [])
                     ++ match ids with
                        | [] => []
                        | _ => [Dispatch (FitToScreenAction
                                  (List.filter
                                     (visibleNode
                                        (graph (after (resolveNodes gen hide sched
                                                         hasLoadIndicator nodes) w)))
                                     ids) 20 1 true)]
                        end
      | Reject r =>
          (resolveNodes gen hide sched hasLoadIndicator nodes w).1 = Reject r ∧ wrap = []
      | OutOfFuel => False
      end.
Proof.
  intros Hsc. unfold after. rewrite (resolveNodes_unfold gen hide sched hasLoadIndicator nodes w Hsc).
  set (w0 := mkWorld (graph w) (filterText w)
               (trace w ++ if hasLoadIndicator then [LoadIndicator true] else [])).
  destruct (invokeVisible_calls nodes w0) as (calls & ids & g1 & Hiv & Hev).
  rewrite Hiv. cbn [fst snd graph filterText trace].
  set (w2 := mkWorld g1 (filterText w0)
               ((trace w0 ++ calls) ++ [PromiseAll (pendingOf calls); Suspend])).
  destruct (settleAll_settles gen sched (length (pendingOf calls)) (pendingOf calls) w2 eq_refl)
    as (settles & Htr & Hs).
  destruct (settleAll gen sched (length (pendingOf calls)) (pendingOf calls) w2)
    as [[rest|r|] w3]; cbn [fst snd] in *.
  - rewrite center_run. cbn [fst snd graph].
    eexists calls, settles, (Done rest), _. split; [|split; [done|split; [done|]]].
    + apply since_app. cbn [trace]. rewrite Htr. unfold w2, w0. cbn [trace].
      rewrite <- !app_assoc. cbn [app]. reflexivity.
    + split; [done|]. exists ids. reflexivity.
  - exists calls, settles, (Reject r), []. split; [|done].
    apply since_app. rewrite Htr. unfold w2, w0. cbn [trace].
    by rewrite app_nil_r, <- !app_assoc.
  - inversion Hs.
Qed.

End ResolveNodesRuns.

Lemma resolveNodes_short_run (gen : Generator) (hide : string → Graph → nat → bool)
    (sched : World → list nat → nat) (hasLoadIndicator : bool)
    (nodes : list nat) (w : World) :
  forallb (λ n, hiddenOf (graph w) n || resolvedOf (graph w) n) nodes = true →
  resolveNodes gen hide sched hasLoadIndicator nodes w
  = center (map (idOf (graph w)) nodes) w.
Proof.
  intros Hsc. unfold resolveNodes.
  unfold mbind at 1, M_bind at 1, bind at 1, get at 1. by rewrite Hsc.
Qed.

Lemma not_wrap_up_calls (nodes : list nat) (calls : list Event) :
  (∀ e, e ∈ calls → ∃ m r, e = ResolveNode m r ∧ m ∈ nodes) →
  List.filter isWrapUp calls = [].
Proof.
  intros H. apply filter_none. intros e He.
  by destruct (H e He) as (m & r & -> & _).
Qed.

Lemma not_wrap_up_settles (promises : list nat) (settles : list Event) (res : Res (list nat)) :
  Settles promises settles res → List.filter isWrapUp settles = [].
Proof.
  intros H. apply filter_none. intros e He.
  by destruct (Settles_events _ _ _ H e He) as (p & s & ->).
Qed.

Section ResolveNodesExtras.

Variable gen : Generator.
Variable hide : string → Graph → nat → bool.
Variable sched : World → list nat → nat.
Variable hasLoadIndicator : bool.

(** X1: a rejected promise aborts the batch: whenever a promise of
    [resolveNodes] settles as rejected, [resolveNodes] is rejected with the
    reason of that promise, that settlement is the last thing that happens,
    and nothing of the wrap-up is done: no filter pass, no commit, no
    centering, and the load indicator is not switched off. *)
Theorem resolveNodes_promise_rejection_aborts
    (nodes : list nat) (w : World) (p : nat) (reason : string) :
  Settle p (Rejected reason)
    ∈ since w (after (resolveNodes gen hide sched hasLoadIndicator nodes) w) →
  (resolveNodes gen hide sched hasLoadIndicator nodes w).1 = Reject reason
  ∧ last (since w (after (resolveNodes gen hide sched hasLoadIndicator nodes) w))
    = Some (Settle p (Rejected reason))
  ∧ List.filter isWrapUp
      (since w (after (resolveNodes gen hide sched hasLoadIndicator nodes) w)) = [].
Proof.
  intros Hin.
  destruct (forallb (λ n, hiddenOf (graph w) n || resolvedOf (graph w) n) nodes) eqn:Hsc.
  { exfalso. unfold after in Hin. rewrite resolveNodes_short_run, center_run in Hin by done.
    cbn [snd] in Hin. erewrite since_app in Hin by (cbn [trace]; reflexivity).
    destruct (map _ nodes); [by apply elem_of_nil in Hin|].
    apply elem_of_cons in Hin as [Hin|Hin]; [done|]. by apply elem_of_nil in Hin. }
  destruct (resolveNodes_trace gen hide sched hasLoadIndicator nodes w Hsc)
    as (calls & settles & res & wrap & Htr & Hev & Hs & Hres).
  rewrite Htr in Hin |- *.
  assert (Hset : Settle p (Rejected reason) ∈ settles).
  { rewrite !elem_of_app in Hin. destruct Hin as [Hin|[Hin|[Hin|[Hin|Hin]]]]; [| | |done|].
    - destruct hasLoadIndicator; [|by apply elem_of_nil in Hin].
      apply elem_of_cons in Hin as [Hin|Hin]; [done|]. by apply elem_of_nil in Hin.
    - by destruct (Hev _ Hin) as (m & r & ? & _).
    - repeat (apply elem_of_cons in Hin as [Hin|Hin]; [done|]). by apply elem_of_nil in Hin.
    - destruct res as [rest|r|]; [|destruct Hres as [_ ->]; by apply elem_of_nil in Hin|done].
      destruct Hres as [_ [ids ->]]. rewrite !elem_of_app in Hin.
      destruct Hin as [Hin|[Hin|Hin]].
      + repeat (apply elem_of_cons in Hin as [Hin|Hin]; [done|]). by apply elem_of_nil in Hin.
      + destruct hasLoadIndicator; [|by apply elem_of_nil in Hin].
        apply elem_of_cons in Hin as [Hin|Hin]; [done|]. by apply elem_of_nil in Hin.
      + destruct ids; [by apply elem_of_nil in Hin|].
        apply elem_of_cons in Hin as [Hin|Hin]; [done|]. by apply elem_of_nil in Hin. }
  assert (Hnw : List.filter isWrapUp
                  ((if hasLoadIndicator then [LoadIndicator true] else [])
                     ++ calls ++ [PromiseAll (pendingOf calls); Suspend] ++ settles) = []).
  { rewrite !List.filter_app, (not_wrap_up_calls nodes calls Hev),
      (not_wrap_up_settles _ _ _ Hs). by destruct hasLoadIndicator. }
  destruct (Settles_rejected_event _ _ _ _ _ Hs Hset) as (-> & ps & Hps).
  destruct Hres as [Hr ->]. rewrite !app_nil_r.
  split; [exact Hr|]. split; [|exact Hnw].
  rewrite Hps, !app_assoc. apply last_snoc.
Qed.


(** X3: in a batch that is not short-circuited, with a generator that
    respects the data model, every node of the batch that is not hidden is
    passed to the generator, also when it is resolved already, and no hidden
    node and no node outside the batch ever is, whether the fetches then
    fulfil or not. *)
Theorem resolveNodes_invokes_exactly_visible (nodes : list nat) (w : World) :
  WellBehaved gen →
  (∀ m, m ∈ nodes → is_Some (heap (graph w) !! m)) →
  forallb (λ n, hiddenOf (graph w) n || resolvedOf (graph w) n) nodes = false →
  ∀ m, (∃ r, ResolveNode m r
             ∈ since w (after (resolveNodes gen hide sched hasLoadIndicator nodes) w))
       ↔ m ∈ nodes ∧ hiddenOf (graph w) m = false.
Proof.
  intros Hgen Hall Hsc m. unfold after.
  rewrite (resolveNodes_unfold gen hide sched hasLoadIndicator nodes w Hsc).
  set (w0 := mkWorld (graph w) (filterText w)
               (trace w ++ if hasLoadIndicator then [LoadIndicator true] else [])).
  destruct (invokeVisible_spec gen Hgen nodes w0 Hall)
    as (ps & calls & g1 & Hiv & Hk & Hev & Hinv & Hps & Herr & Hthrow).
  rewrite Hiv. cbn [fst snd graph filterText trace].
  set (w2 := mkWorld g1 (filterText w0) ((trace w0 ++ calls) ++ [PromiseAll ps; Suspend])).
  destruct (settleAll_frame gen sched (length ps) ps w2 Hgen) as (_ & (evs & Htr & Hevs) & _).
  assert (Hli : Forall (λ e, ∀ m' r', e ≠ ResolveNode m' r')
                        (if hasLoadIndicator then [LoadIndicator true] else []))
    by (destruct hasLoadIndicator; repeat constructor; done).
  assert (Hse : Forall (λ e, ∀ m' r', e ≠ ResolveNode m' r') evs).
  { apply Forall_forall. intros e He m' r' ->. by destruct (Hevs _ He) as (p & s' & ?). }
  assert (Hiff : ∀ rest, Forall (λ e, ∀ m' r', e ≠ ResolveNode m' r') rest →
            (∃ r, ResolveNode m r
                  ∈ (if hasLoadIndicator then [LoadIndicator true] else []) ++ calls ++ rest)
            ↔ m ∈ nodes ∧ hiddenOf (graph w) m = false).
  { intros rest Hrest. split.
    - intros [r Hin]. rewrite !elem_of_app in Hin. destruct Hin as [Hin|[Hin|Hin]].
      + rewrite Forall_forall in Hli. by destruct (Hli _ Hin m r).
      + destruct (Hev _ Hin) as (m' & r' & [= <- <-] & Hm & Hv). done.
      + rewrite Forall_forall in Hrest. by destruct (Hrest _ Hin m r).
    - intros [Hm Hv]. destruct (Hinv m Hm Hv) as [r Hr]. exists r.
      rewrite !elem_of_app. auto. }
  destruct (settleAll gen sched (length ps) ps w2) as [[rest|r|] w3]; cbn [fst snd] in *.
  - rewrite center_run. cbn [snd].
    erewrite since_app; [apply Hiff|].
    2:{ cbn [trace]. rewrite Htr. unfold w2, w0. cbn [trace].
        rewrite <- !app_assoc. reflexivity. }
    apply Forall_app. split; [repeat constructor; done|].
    apply Forall_app. split; [done|].
    apply Forall_app. split; [repeat constructor; done|].
    apply Forall_app. split; [destruct hasLoadIndicator; repeat constructor; done|].
    destruct (map _ _); repeat constructor; done.
  - erewrite since_app; [apply Hiff|].
    2:{ rewrite Htr. unfold w2, w0. cbn [trace]. rewrite <- !app_assoc. reflexivity. }
    apply Forall_app. split; [repeat constructor; done|done].
  - erewrite since_app; [apply Hiff|].
    2:{ rewrite Htr. unfold w2, w0. cbn [trace]. rewrite <- !app_assoc. reflexivity. }
    apply Forall_app. split; [repeat constructor; done|done].
Qed.

End ResolveNodesExtras.

(** ** Runs of [resolveGraph] *)

Lemma CallsOf_events (frontier : list nat) (calls : list Event) :
  CallsOf frontier calls →
  (∀ e, e ∈ calls → ∃ m r, e = ResolveNode m r ∧ m ∈ frontier)
  ∧ (∀ m, m ∈ frontier → ∃ r, ResolveNode m r ∈ calls).
Proof.
  induction 1 as [|n e frontier calls [r ->] _ [IH1 IH2]].
  - split; intros x Hx; by apply elem_of_nil in Hx.
  - split.
    + intros e He. apply elem_of_cons in He as [->|He].
      * exists n, r. split; [done|]. apply elem_of_cons. by left.
      * destruct (IH1 e He) as (m & r' & -> & Hm).
        exists m, r'. split; [done|]. apply elem_of_cons. by right.
    + intros m Hm. apply elem_of_cons in Hm as [->|Hm].
      * exists r. apply elem_of_cons. by left.
      * destruct (IH2 m Hm) as [r' Hr']. exists r'. apply elem_of_cons. by right.
Qed.

Lemma Waves_not_wrap_up (frontier : list nat) (evs : list Event) (res : Res unit) :
  Waves frontier evs res → List.filter isWrapUp evs = [].
Proof.
  induction 1 as [|frontier Hne|frontier calls settles reason Hne Hc Hs
                  |frontier calls settles newNodes rest res Hne Hc Hs Hw IH]; try done.
  - rewrite !List.filter_app, (not_wrap_up_settles _ _ _ Hs),
      (not_wrap_up_calls frontier calls (proj1 (CallsOf_events _ _ Hc))). done.
  - rewrite !List.filter_app, (not_wrap_up_settles _ _ _ Hs), IH,
      (not_wrap_up_calls frontier calls (proj1 (CallsOf_events _ _ Hc))). done.
Qed.

Lemma Waves_rejection (frontier : list nat) (evs : list Event) (res : Res unit)
    (p : nat) (reason : string) :
  Waves frontier evs res →
  Settle p (Rejected reason) ∈ evs →
  res = Reject reason ∧ last evs = Some (Settle p (Rejected reason)).
Proof.
  induction 1 as [|frontier Hne|frontier calls settles reason' Hne Hc Hs
                  |frontier calls settles newNodes rest res Hne Hc Hs Hw IH]; intros Hin.
  - by apply elem_of_nil in Hin.
  - by apply elem_of_nil in Hin.
  - rewrite !elem_of_app in Hin. destruct Hin as [Hin|[Hin|Hin]].
    + by destruct (proj1 (CallsOf_events _ _ Hc) _ Hin) as (m & r & ? & _).
    + repeat (apply elem_of_cons in Hin as [Hin|Hin]; [done|]). by apply elem_of_nil in Hin.
    + destruct (Settles_rejected_event _ _ _ _ _ Hs Hin) as ([= ->] & ps & ->).
      split; [done|]. rewrite !app_assoc. apply last_snoc.
  - rewrite !elem_of_app in Hin. destruct Hin as [Hin|[Hin|[Hin|Hin]]].
    + by destruct (proj1 (CallsOf_events _ _ Hc) _ Hin) as (m & r & ? & _).
    + repeat (apply elem_of_cons in Hin as [Hin|Hin]; [done|]). by apply elem_of_nil in Hin.
    + by destruct (Settles_rejected_event _ _ _ _ _ Hs Hin) as [? _].
    + destruct (IH Hin) as [-> Hlast]. split; [done|].
      destruct rest as [|e rest]; [done|].
      rewrite !app_assoc. by rewrite last_app, Hlast.
Qed.

Section ResolveGraphExtras.

Variable gen : Generator.
Variable hide : string → Graph → nat → bool.
Variable sched : World → list nat → nat.
Variable hasLoadIndicator : bool.

(** X4: when the model has no unresolved node, [resolveGraph] makes no call
    to the generator and no wave, whatever the bound on waves; it still
    signals the load indicator, refreshes the filter, commits and centers
    on the visible nodes. *)
Theorem resolveGraph_nothing_unresolved (fuel : nat) (w : World) :
  unresolvedChildren (graph w) = [] →
  let g' := refresh_graph hide (filterText w) (graph w) in
  (resolveGraph gen hide sched hasLoadIndicator fuel w).1 = Done tt
  ∧ graph (after (resolveGraph gen hide sched hasLoadIndicator fuel) w) = g'
  ∧ since w (after (resolveGraph gen hide sched hasLoadIndicator fuel) w)
    = (if hasLoadIndicator then [LoadIndicator true] else [])
        ++ [Refresh; UpdateModel; Suspend]
        ++ (if hasLoadIndicator then [LoadIndicator false] else [])
        ++ match visibleChildIds g' with
           | [] => []
           | _ => [Dispatch (FitToScreenAction
                     (List.filter (visibleNode g') (visibleChildIds g')) 20 1 true)]
           end.
Proof.
  intros Hnone g'. unfold after. rewrite resolveGraph_unfold, Hnone.
  assert (Hw : ∀ v, resolveWaves gen sched fuel [] v = (Done tt, v)) by (by destruct fuel).
  rewrite Hw, center_run. cbn [fst snd graph filterText trace]. fold g'.
  split; [done|]. split; [done|].
  apply since_app. cbn [trace]. by rewrite <- !app_assoc.
Qed.

(** X5: a rejected promise aborts [resolveGraph]: whenever a promise of one
    of its waves settles as rejected, [resolveGraph] is rejected with the
    reason of that promise, that settlement is the last thing that happens
    (no further wave starts), and nothing of the wrap-up is done: no filter
    pass, no commit, no centering, the load indicator not switched off. *)
Theorem resolveGraph_promise_rejection_aborts
    (fuel : nat) (w : World) (p : nat) (reason : string) :
  Settle p (Rejected reason)
    ∈ since w (after (resolveGraph gen hide sched hasLoadIndicator fuel) w) →
  (resolveGraph gen hide sched hasLoadIndicator fuel w).1 = Reject reason
  ∧ last (since w (after (resolveGraph gen hide sched hasLoadIndicator fuel) w))
    = Some (Settle p (Rejected reason))
  ∧ List.filter isWrapUp
      (since w (after (resolveGraph gen hide sched hasLoadIndicator fuel) w)) = [].
Proof.
  unfold after. rewrite resolveGraph_unfold.
  set (w0 := mkWorld (graph w) (filterText w)
               (trace w ++ if hasLoadIndicator then [LoadIndicator true] else [])).
  destruct (resolveWaves_waves gen sched fuel (unresolvedChildren (graph w)) w0)
    as (evs & Htr & Hw).
  assert (Hli : Settle p (Rejected reason)
                ∉ (if hasLoadIndicator then [LoadIndicator true] else [])).
  { intros Hin. destruct hasLoadIndicator; [|by apply elem_of_nil in Hin].
    apply elem_of_cons in Hin as [Hin|Hin]; [done|]. by apply elem_of_nil in Hin. }
  destruct (resolveWaves gen sched fuel (unresolvedChildren (graph w)) w0)
    as [[[]|r|] w1]; cbn [fst snd] in *.
  - rewrite center_run. cbn [fst snd]. intros Hin. exfalso.
    erewrite since_app in Hin
      by (cbn [trace]; rewrite Htr; unfold w0; cbn [trace];
          rewrite <- !app_assoc; reflexivity).
    rewrite !elem_of_app in Hin. destruct Hin as [Hin|[Hin|[Hin|[Hin|Hin]]]]; [done| | | |].
    + by destruct (Waves_rejection _ _ _ _ _ Hw Hin) as [? _].
    + repeat (apply elem_of_cons in Hin as [Hin|Hin]; [done|]). by apply elem_of_nil in Hin.
    + destruct hasLoadIndicator; [|by apply elem_of_nil in Hin].
      apply elem_of_cons in Hin as [Hin|Hin]; [done|]. by apply elem_of_nil in Hin.
    + destruct (visibleChildIds _); [by apply elem_of_nil in Hin|].
      apply elem_of_cons in Hin as [Hin|Hin]; [done|]. by apply elem_of_nil in Hin.
  - rewrite (since_app w w1 ((if hasLoadIndicator then [LoadIndicator true] else []) ++ evs))
      by (rewrite Htr; unfold w0; cbn [trace]; by rewrite <- app_assoc).
    intros Hin. apply elem_of_app in Hin as [Hin|Hin]; [done|].
    destruct (Waves_rejection _ _ _ _ _ Hw Hin) as [[= ->] Hlast].
    split; [done|]. split.
    + destruct evs as [|e evs]; [done|]. by rewrite last_app, Hlast.
    + rewrite List.filter_app, (Waves_not_wrap_up _ _ _ Hw). by destruct hasLoadIndicator.
  - rewrite (since_app w w1 ((if hasLoadIndicator then [LoadIndicator true] else []) ++ evs))
      by (rewrite Htr; unfold w0; cbn [trace]; by rewrite <- app_assoc).
    intros Hin. apply elem_of_app in Hin as [Hin|Hin]; [done|].
    by destruct (Waves_rejection _ _ _ _ _ Hw Hin) as [? _].
Qed.

(** X6: unlike [resolveNodes], [resolveGraph] does not look at [hidden]:
    given room for one wave, every unresolved node among the model's
    children, hidden or not, is passed to the generator. *)
Theorem resolveGraph_invokes_every_unresolved (fuel : nat) (w : World) (m : nat) :
  0 < fuel →
  m ∈ unresolvedChildren (graph w) →
  ∃ r, ResolveNode m r
       ∈ since w (after (resolveGraph gen hide sched hasLoadIndicator fuel) w).
Proof.
  intros Hfuel Hm. destruct fuel as [|fuel]; [lia|].
  unfold after. rewrite resolveGraph_unfold.
  set (w0 := mkWorld (graph w) (filterText w)
               (trace w ++ if hasLoadIndicator then [LoadIndicator true] else [])).
  destruct (unresolvedChildren (graph w)) as [|node rest] eqn:Hfront;
    [by apply elem_of_nil in Hm|].
  assert (Hfirst : ∃ calls more,
            trace (resolveWaves gen sched (S fuel) (node :: rest) w0).2
            = trace w0 ++ calls ++ more
            ∧ CallsOf (node :: rest) calls).
  { cbn [resolveWaves]. unfold awaitAll. run.
    destruct (invokeFrontier_calls gen (node :: rest) w0) as (calls & g' & Hrun & Hcalls).
    rewrite Hrun. run.
    set (w2 := mkWorld g' (filterText w)
                 (((trace w0 ++ calls) ++ [PromiseAll (pendingOf calls)]) ++ [Suspend])).
    destruct (settleAll_settles gen sched (length (pendingOf calls)) (pendingOf calls) w2 eq_refl)
      as (settles & Htr & _).
    change (filterText w0) with (filterText w). fold w2.
    destruct (settleAll gen sched (length (pendingOf calls)) (pendingOf calls) w2)
      as [[newNodes|r|] w3]; cbn [fst snd] in *.
    - destruct (resolveWaves_waves gen sched fuel newNodes w3) as (evs & Htr' & _).
      exists calls, ([PromiseAll (pendingOf calls); Suspend] ++ settles ++ evs).
      split; [|done]. rewrite Htr', Htr. unfold w2. cbn [trace]. by rewrite <- !app_assoc.
    - exists calls, ([PromiseAll (pendingOf calls); Suspend] ++ settles).
      split; [|done]. rewrite Htr. unfold w2. cbn [trace]. by rewrite <- !app_assoc.
    - exists calls, ([PromiseAll (pendingOf calls); Suspend] ++ settles).
      split; [|done]. rewrite Htr. unfold w2. cbn [trace]. by rewrite <- !app_assoc. }
  destruct Hfirst as (calls & more & Htr & Hcalls).
  destruct (proj2 (CallsOf_events _ _ Hcalls) m Hm) as [r Hr]. exists r.
  assert (Hin : ∀ tail w',
            trace w' = trace (resolveWaves gen sched (S fuel) (node :: rest) w0).2 ++ tail →
            ResolveNode m r ∈ since w w').
  { intros tail w' Hw'.
    rewrite (since_app w w' ((if hasLoadIndicator then [LoadIndicator true] else [])
                             ++ calls ++ more ++ tail)).
    - rewrite !elem_of_app. auto.
    - rewrite Hw', Htr. unfold w0. cbn [trace]. by rewrite <- !app_assoc. }
  destruct (resolveWaves gen sched (S fuel) (node :: rest) w0) as [[[]|r'|] w1];
    cbn [fst snd] in *.
  - rewrite center_run. cbn [snd]. eapply Hin. cbn [trace].
    rewrite <- app_assoc. reflexivity.
  - apply (Hin []). by rewrite app_nil_r.
  - apply (Hin []). by rewrite app_nil_r.
Qed.

End ResolveGraphExtras.

(** ** Centering and the select handlers *)

Lemma filter_sublist {A} (p : A → bool) (l : list A) : sublist (List.filter p l) l.
Proof.
  induction l as [|x l IH]; [constructor|]. cbn.
  destruct (p x); by constructor.
Qed.

(** X7: on a non-empty list [center] dispatches exactly one fit-to-screen
    action, with padding 20, maximal zoom 1 and animation, over exactly the
    requested ids that the index resolves to a node that is not hidden, in
    the order and with the repetitions of the request; on the empty list it
    does nothing. *)
Theorem center_dispatches_filtered (elementIds : list string) (w : World) :
  since w (after (center elementIds) w)
  = match elementIds with
    | [] => []
    | _ => [Dispatch (FitToScreenAction
              (List.filter (visibleNode (graph w)) elementIds) 20 1 true)]
    end
  ∧ sublist (List.filter (visibleNode (graph w)) elementIds) elementIds
  ∧ ∀ i, i ∈ List.filter (visibleNode (graph w)) elementIds ↔
         i ∈ elementIds
         ∧ ∃ e, getById (graph w) i = Some e ∧ type e = "node" ∧ hidden e = false.
Proof.
  split; [|split; [apply filter_sublist|intros i; apply elem_of_filter_visible]].
  apply since_app. unfold after. by rewrite center_run.
Qed.

Lemma selectedNodes_spec (g : Graph) (ids : list string) (m : nat) :
  m ∈ selectedNodes g ids ↔
  ∃ i e, i ∈ ids ∧ index g !! i = Some m ∧ heap g !! m = Some e ∧ type e = "node".
Proof.
  unfold selectedNodes. rewrite list_elem_of_omap. split.
  - intros (i & Hi & Hsel). exists i.
    destruct (index g !! i) as [l|]; [|done]. cbn in Hsel.
    destruct (heap g !! l) as [e|] eqn:He; [|done]. cbn in Hsel.
    destruct (String.eqb (type e) "node") eqn:Ht; [|done].
    injection Hsel as <-. exists e. apply String.eqb_eq in Ht. done.
  - intros (i & e & Hi & Hidx & He & Ht). exists i. split; [done|].
    rewrite Hidx. cbn. rewrite He. cbn. rewrite Ht. done.
Qed.

Section HandlerExtras.

Variable gen : Generator.
Variable hide : string → Graph → nat → bool.
Variable sched : World → list nat → nat.
Variable hasLoadIndicator : bool.

Lemma resolveNodes_calls_in_batch (nodes : list nat) (w : World) (m : nat) (r : Invoked) :
  ResolveNode m r ∈ since w (after (resolveNodes gen hide sched hasLoadIndicator nodes) w) →
  m ∈ nodes.
Proof.
  destruct (forallb (λ n, hiddenOf (graph w) n || resolvedOf (graph w) n) nodes) eqn:Hsc.
  - unfold after. rewrite resolveNodes_short_run, center_run by done. cbn [snd].
    erewrite since_app by (cbn [trace]; reflexivity).
    intros Hin. destruct (map _ nodes); [by apply elem_of_nil in Hin|].
    apply elem_of_cons in Hin as [Hin|Hin]; [done|]. by apply elem_of_nil in Hin.
  - destruct (resolveNodes_trace gen hide sched hasLoadIndicator nodes w Hsc)
      as (calls & settles & res & wrap & -> & Hev & Hs & Hres).
    rewrite !elem_of_app. intros [Hin|[Hin|[Hin|[Hin|Hin]]]].
    + destruct hasLoadIndicator; [|by apply elem_of_nil in Hin].
      apply elem_of_cons in Hin as [Hin|Hin]; [done|]. by apply elem_of_nil in Hin.
    + by destruct (Hev _ Hin) as (m' & r' & [= <- <-] & Hm).
    + repeat (apply elem_of_cons in Hin as [Hin|Hin]; [done|]). by apply elem_of_nil in Hin.
    + by destruct (Settles_events _ _ _ Hs _ Hin) as (p & s' & ?).
    + destruct res as [rest|reason|]; [|destruct Hres as [_ ->]; by apply elem_of_nil in Hin
                                        |done].
      destruct Hres as [_ [ids ->]]. rewrite !elem_of_app in Hin.
      destruct Hin as [Hin|[Hin|Hin]].
      * repeat (apply elem_of_cons in Hin as [Hin|Hin]; [done|]). by apply elem_of_nil in Hin.
      * destruct hasLoadIndicator; [|by apply elem_of_nil in Hin].
        apply elem_of_cons in Hin as [Hin|Hin]; [done|]. by apply elem_of_nil in Hin.
      * destruct ids; [by apply elem_of_nil in Hin|].
        apply elem_of_cons in Hin as [Hin|Hin]; [done|]. by apply elem_of_nil in Hin.
Qed.

(** X8: [handleSelect] does nothing at all, not even a dispatch, when none
    of the selected ids is the id of an index element of type ['node']
    (ids that are gone, ids of edges). *)
Theorem handleSelect_without_node (selectedElementsIDs : list string) (w : World) :
  (∀ i e, i ∈ selectedElementsIDs → getById (graph w) i = Some e → type e ≠ "node") →
  handleSelect gen hide sched hasLoadIndicator selectedElementsIDs w = (Done tt, w).
Proof.
  intros Hnone. unfold handleSelect. run.
  assert (Hsel : selectedNodes (graph w) selectedElementsIDs = []).
  { apply elem_of_nil_inv. intros m Hm.
    apply selectedNodes_spec in Hm as (i & e & Hi & Hidx & He & Ht).
    apply (Hnone i e Hi); [|done]. unfold getById. rewrite Hidx. exact He. }
  by rewrite Hsel.
Qed.

(** X9: whatever [handleSelect] passes to the generator is an object that
    the index holds, under one of the selected ids, as an element of type
    ['node']. *)
Theorem handleSelect_calls_selected_nodes
    (selectedElementsIDs : list string) (w : World) (m : nat) (r : Invoked) :
  ResolveNode m r
    ∈ since w (after (handleSelect gen hide sched hasLoadIndicator selectedElementsIDs) w) →
  ∃ i e, i ∈ selectedElementsIDs ∧ index (graph w) !! i = Some m
         ∧ heap (graph w) !! m = Some e ∧ type e = "node".
Proof.
  unfold after, handleSelect. run. intros Hin.
  apply selectedNodes_spec.
  destruct (selectedNodes (graph w) selectedElementsIDs) as [|n nodes] eqn:Hsel.
  - cbn in Hin. rewrite (since_app w w []) in Hin by (by rewrite app_nil_r).
    by apply elem_of_nil in Hin.
  - cbn [length Nat.ltb Nat.leb] in Hin.
    by apply (resolveNodes_calls_in_batch (n :: nodes) w m r).
Qed.

Variable indexOrder : Graph → list nat.

(** X10: [handleSelectAll] does nothing at all when the action deselects,
    and nothing at all when it selects but the index holds no element of
    type ['node']. *)
Theorem handleSelectAll_nothing_to_do (w : World) :
  handleSelectAll gen hide sched hasLoadIndicator indexOrder false w = (Done tt, w)
  ∧ ((∀ l e, l ∈ indexOrder (graph w) → heap (graph w) !! l = Some e → type e ≠ "node") →
     handleSelectAll gen hide sched hasLoadIndicator indexOrder true w = (Done tt, w)).
Proof.
  split; [done|]. intros Hnone. unfold handleSelectAll. run.
  rewrite filter_none; [done|].
  intros l Hl. unfold deref. destruct (heap (graph w) !! l) as [e|] eqn:He; [|done].
  cbn. apply String.eqb_neq. by apply (Hnone l e).
Qed.

End HandlerExtras.

(** ** Clearing *)

Lemma clear_loop_frame (h : gmap nat Element) (cs : list nat) (g : Graph) :
  heap (foldl (λ g' l, match h !! l with
                       | Some element => index_remove element g'
                       | None => g'
                       end) g cs) = heap g
  ∧ children (foldl (λ g' l, match h !! l with
                             | Some element => index_remove element g'
                             | None => g'
                             end) g cs) = children g.
Proof.
  revert g. induction cs as [|c cs IH]; intros g; [done|].
  cbn [foldl]. destruct (IH (match h !! c with
                             | Some element => index_remove element g
                             | None => g
                             end)) as [-> ->].
  by destruct (h !! c).
Qed.

Lemma existsb_childIds (g : Graph) (i : string) :
  existsb (λ c, match heap g !! c with
                | Some e => String.eqb (id e) i
                | None => false
                end) (children g)
  = bool_decide (i ∈ childIds g).
Proof.
  unfold childIds. destruct (existsb _ _) eqn:Hex; symmetry.
  - apply bool_decide_eq_true. apply existsb_exists in Hex as (c & Hc & Hid).
    apply list_elem_of_omap. exists c. split; [by apply list_elem_of_In|].
    destruct (heap g !! c) as [e|]; [|done]. apply String.eqb_eq in Hid as <-. done.
  - apply bool_decide_eq_false. intros Hin.
    apply list_elem_of_omap in Hin as (c & Hc & Hid).
    assert (Hex' : existsb (λ c, match heap g !! c with
                                 | Some e => String.eqb (id e) i
                                 | None => false
                                 end) (children g) = true).
    { apply existsb_exists. exists c. split; [by apply list_elem_of_In|].
      destruct (heap g !! c) as [e|]; [|done]. injection Hid as <-.
      apply String.eqb_refl. }
    congruence.
Qed.

Lemma clear_run (w : World) :
  clear w
  = (Done tt,
     mkWorld (set_children []
                (foldl (λ g' l, match heap (graph w) !! l with
                                | Some element => index_remove element g'
                                | None => g'
                                end) (graph w) (children (graph w))))
             "" (trace w ++ [SetFilter ""; UpdateModel])).
Proof. unfold clear, setFilter. run. by rewrite <- app_assoc. Qed.

(** X11: [clear] takes every child of the model out of the index and
    leaves the element objects themselves untouched: afterwards the id of a
    former child resolves to nothing, so that selecting it or centering on
    it dispatches an action that names no id. *)
Theorem clear_unindexes_children (w : World) (i : string) :
  i ∈ childIds (graph w) →
  index (graph (after clear w)) !! i = None
  ∧ heap (graph (after clear w)) = heap (graph w)
  ∧ since (after clear w) (after (select [i]) (after clear w))
    = [Dispatch (SelectAction [])]
  ∧ since (after clear w) (after (center [i]) (after clear w))
    = [Dispatch (FitToScreenAction [] 20 1 true)].
Proof.
  intros Hi.
  assert (Hidx : index (graph (after clear w)) !! i = None).
  { unfold after. rewrite clear_run. cbn [snd graph set_children index].
    rewrite clear_loop_index, existsb_childIds. by rewrite bool_decide_eq_true_2. }
  assert (Hvis : visibleNode (graph (after clear w)) i = false)
    by (unfold visibleNode, getById; by rewrite Hidx).
  split; [exact Hidx|]. split.
  { unfold after. rewrite clear_run. cbn [snd graph set_children heap].
    apply clear_loop_frame. }
  clear Hidx. generalize dependent (after clear w). intros w1 Hvis.
  split; apply since_app.
  - unfold after, select. cbn [length Nat.ltb Nat.leb]. unfold mbind, M_bind, bind, get, dispatch, emit.
    cbn [snd trace graph List.filter]. by rewrite Hvis.
  - unfold after. rewrite center_run. cbn [snd trace List.filter]. by rewrite Hvis.
Qed.

Section ClearExtras.

Variable hide : string → Graph → nat → bool.

Lemma refresh_graph_no_children (text : string) (g : Graph) :
  children g = [] → refresh_graph hide text g = g.
Proof.
  intros Hc. unfold refresh_graph, set_heap.
  assert (Hh : map_imap (λ l e, Some (if bool_decide (l ∈ children g)
                                      then set_hidden (hide text g l) e
                                      else e)) (heap g) = heap g).
  { apply map_eq. intros l. rewrite map_lookup_imap.
    destruct (heap g !! l) as [e|]; [|done]. cbn.
    rewrite bool_decide_eq_false_2; [done|]. rewrite Hc. apply not_elem_of_nil. }
  rewrite Hh. by destruct g.
Qed.

(** X12: right after [clear], [filter(text)] finds nothing to show: it sets
    the text, refreshes, deselects and commits, but dispatches no
    fit-to-screen action, and the cleared graph stays as it is. *)
Theorem filter_after_clear (text : string) (w : World) :
  after (filter hide text) (after clear w)
  = mkWorld (graph (after clear w)) text
      (trace (after clear w)
       ++ [SetFilter text; Refresh; Dispatch (SelectAllAction false); UpdateModel; Suspend]).
Proof.
  assert (Hc : children (graph (after clear w)) = [])
    by (unfold after; by rewrite clear_run).
  generalize dependent (after clear w). intros w1 Hc.
  unfold after, filter, setFilter, refresh. run.
  rewrite (refresh_graph_no_children text _ Hc).
  unfold visibleChildIds. rewrite Hc. cbn [omap List.filter map]. unfold center. run.
  by rewrite <- !app_assoc.
Qed.

End ClearExtras.

(** X13: [clear] on a cleared model changes nothing in the graph; it resets
    the filter text and commits once more. *)
Theorem clear_twice (w : World) :
  graph (after clear (after clear w)) = graph (after clear w)
  ∧ filterText (after clear (after clear w)) = ""
  ∧ since (after clear w) (after clear (after clear w)) = [SetFilter ""; UpdateModel].
Proof.
  assert (Hc : children (graph (after clear w)) = [])
    by (unfold after; by rewrite clear_run).
  generalize dependent (after clear w). intros w1 Hc.
  unfold after. rewrite (clear_run w1), Hc.
  cbn [snd graph filterText foldl]. split; [|split; [done|by apply since_app]].
  unfold set_children. rewrite <- Hc. by destruct (graph w1).
Qed.

(** ** Applying computed bounds *)

Lemma sameButGeometry_refl (e : Element) : sameButGeometry e e.
Proof. by repeat split. Qed.

Lemma sameButGeometry_trans (e1 e2 e3 : Element) :
  sameButGeometry e1 e2 → sameButGeometry e2 e3 → sameButGeometry e1 e3.
Proof.
  intros (?&?&?&?&?&?&?&?&?) (?&?&?&?&?&?&?&?&?). repeat split; congruence.
Qed.

Lemma geometryOnly_refl (g : Graph) : geometryOnly g g.
Proof.
  split; [done|]. split; [done|]. intros l.
  destruct (heap g !! l); [apply sameButGeometry_refl|done].
Qed.

Lemma geometryOnly_trans (g1 g2 g3 : Graph) :
  geometryOnly g1 g2 → geometryOnly g2 g3 → geometryOnly g1 g3.
Proof.
  intros (Hc1 & Hi1 & Hh1) (Hc2 & Hi2 & Hh2).
  split; [congruence|]. split; [congruence|]. intros l.
  specialize (Hh1 l). specialize (Hh2 l).
  destruct (heap g1 !! l), (heap g2 !! l), (heap g3 !! l); try done.
  by eapply sameButGeometry_trans.
Qed.

Lemma geometryOnly_alter (f : Element → Element) (l : nat) (g : Graph) :
  (∀ e, sameButGeometry e (f e)) → geometryOnly g (set_heap (alter f l (heap g)) g).
Proof.
  intros Hf. split; [done|]. split; [done|]. intros l'.
  unfold set_heap. cbn [heap]. rewrite lookup_alter.
  destruct (decide (l = l')) as [->|Hne].
  - destruct (heap g !! l'); cbn; [apply Hf|done].
  - destruct (heap g !! l'); [apply sameButGeometry_refl|done].
Qed.

Lemma geometryOnly_applyBounds (l : nat) (b : Bounds) (g : Graph) :
  geometryOnly g (applyBounds l b g).
Proof. apply geometryOnly_alter. intros e. by repeat split. Qed.

Lemma geometryOnly_applyAlignment (l : nat) (a : Point) (g : Graph) :
  geometryOnly g (applyAlignment l a g).
Proof. apply geometryOnly_alter. intros e. by repeat split. Qed.

Lemma refById_geometryOnly (g g' : Graph) (i : string) :
  geometryOnly g g' → refById g' i = refById g i.
Proof.
  intros (_ & Hi & Hh). unfold refById. rewrite Hi.
  destruct (index g !! i) as [l|]; [|done]. cbn.
  specialize (Hh l). by destruct (heap g !! l), (heap g' !! l).
Qed.

Lemma bounds_loop_geometryOnly (bs : list ElementAndBounds) (g : Graph) :
  geometryOnly g (foldl (λ g b, match refById g (b_elementId b) with
                                | Some element => applyBounds element (newBounds b) g
                                | None => g
                                end) g bs).
Proof.
  revert g. induction bs as [|b bs IH]; intros g; [apply geometryOnly_refl|].
  cbn [foldl]. eapply geometryOnly_trans; [|apply IH].
  destruct (refById g (b_elementId b)); [apply geometryOnly_applyBounds|apply geometryOnly_refl].
Qed.

Lemma alignment_loop_geometryOnly (al : list ElementAndAlignment) (g : Graph) :
  geometryOnly g (foldl (λ g a, match refById g (a_elementId a) with
                                | Some element => applyAlignment element (newAlignment a) g
                                | None => g
                                end) g al).
Proof.
  revert g. induction al as [|a al IH]; intros g; [apply geometryOnly_refl|].
  cbn [foldl]. eapply geometryOnly_trans; [|apply IH].
  destruct (refById g (a_elementId a));
    [apply geometryOnly_applyAlignment|apply geometryOnly_refl].
Qed.

(** X14: applying computed bounds and alignments touches geometry only:
    the children, the index and, for every element object, its id, type,
    [hidden], name, version, [resolved], [error] and end points are as
    before, and no object appears or disappears. *)
Theorem applyComputed_geometry_only (action : ComputedBoundsAction) (g : Graph) :
  geometryOnly g (applyComputed action g).
Proof.
  unfold applyComputed. destruct (alignments action) as [al|].
  - eapply geometryOnly_trans; [apply bounds_loop_geometryOnly|].
    apply alignment_loop_geometryOnly.
  - apply bounds_loop_geometryOnly.
Qed.

(** X15: bounds and alignments for ids that the index does not (or no
    longer) hold are skipped: if none of the ids is in the index, the graph
    is exactly as before. *)
Theorem applyComputed_unknown_ids (action : ComputedBoundsAction) (g : Graph) :
  (∀ b, b ∈ bounds action → refById g (b_elementId b) = None) →
  (∀ al a, alignments action = Some al → a ∈ al → refById g (a_elementId a) = None) →
  applyComputed action g = g.
Proof.
  intros Hb Ha. unfold applyComputed.
  assert (Hbs : foldl (λ g b, match refById g (b_elementId b) with
                              | Some element => applyBounds element (newBounds b) g
                              | None => g
                              end) g (bounds action) = g).
  { induction (bounds action) as [|b bs IH]; [done|]. cbn [foldl].
    rewrite (Hb b) by (apply elem_of_cons; by left).
    apply IH. intros b' Hb'. apply Hb, elem_of_cons. by right. }
  rewrite Hbs. destruct (alignments action) as [al|]; [|done].
  specialize (Ha al). induction al as [|a al IH]; [done|]. cbn [foldl].
  rewrite (Ha a eq_refl) by (apply elem_of_cons; by left).
  apply IH. intros a' _ Ha'. apply Ha; [done|]. apply elem_of_cons. by right.
Qed.

Lemma alignment_loop_keeps_bounds (al : list ElementAndAlignment) (g : Graph) (l : nat) :
  (λ e, (position e, size_ e))
    <$> heap (foldl (λ g a, match refById g (a_elementId a) with
                            | Some element => applyAlignment element (newAlignment a) g
                            | None => g
                            end) g al) !! l
  = (λ e, (position e, size_ e)) <$> heap g !! l.
Proof.
  revert g. induction al as [|a al IH]; intros g; [done|].
  cbn [foldl]. rewrite IH. destruct (refById g (a_elementId a)) as [l'|]; [|done].
  unfold applyAlignment, set_heap. cbn [heap]. rewrite lookup_alter.
  destruct (decide (l' = l)) as [->|]; [|done]. by destruct (heap g !! l).
Qed.

Lemma bounds_loop_keeps_other (g0 : Graph) (bs : list ElementAndBounds) (g : Graph) (l : nat) :
  geometryOnly g0 g →
  (∀ b, b ∈ bs → refById g0 (b_elementId b) ≠ Some l) →
  heap (foldl (λ g b, match refById g (b_elementId b) with
                      | Some element => applyBounds element (newBounds b) g
                      | None => g
                      end) g bs) !! l
  = heap g !! l.
Proof.
  revert g. induction bs as [|b bs IH]; intros g Hg Hbs; [done|].
  cbn [foldl].
  assert (Hb : refById g (b_elementId b) ≠ Some l).
  { rewrite (refById_geometryOnly g0 g _ Hg). apply Hbs, elem_of_cons. by left. }
  assert (Hbs' : ∀ b', b' ∈ bs → refById g0 (b_elementId b') ≠ Some l)
    by (intros b' Hb'; apply Hbs, elem_of_cons; by right).
  destruct (refById g (b_elementId b)) as [l'|].
  - rewrite IH; [|eapply geometryOnly_trans; [exact Hg|apply geometryOnly_applyBounds]|done].
    unfold applyBounds, set_heap. cbn [heap]. apply lookup_alter_ne. congruence.
  - by apply IH.
Qed.

(** X16: of the bounds computed for one element the last ones win: after
    [handleComputedBounds] has applied the action, the element carries the
    position and the size of the last entry of the bounds whose id the
    index resolves to it, whatever alignments follow. *)
Theorem applyComputed_last_bounds (action : ComputedBoundsAction) (g : Graph)
    (pre post : list ElementAndBounds) (b : ElementAndBounds) (l : nat) :
  bounds action = pre ++ b :: post →
  refById g (b_elementId b) = Some l →
  (∀ b', b' ∈ post → refById g (b_elementId b') ≠ Some l) →
  ∃ e', heap (applyComputed action g) !! l = Some e'
        ∧ position e' = Some (mkPoint (bx (newBounds b)) (by_ (newBounds b)))
        ∧ size_ e' = Some (mkDimension (bwidth (newBounds b)) (bheight (newBounds b))).
Proof.
  intros Hbs Hl Hpost.
  assert (Hgeom : (λ e, (position e, size_ e)) <$> heap (applyComputed action g) !! l
                  = Some (Some (mkPoint (bx (newBounds b)) (by_ (newBounds b))),
                          Some (mkDimension (bwidth (newBounds b)) (bheight (newBounds b))))).
  { unfold applyComputed.
    assert (Hloop : (λ e, (position e, size_ e))
                      <$> heap (foldl (λ g b, match refById g (b_elementId b) with
                                              | Some element =>
                                                  applyBounds element (newBounds b) g
                                              | None => g
                                              end) g (bounds action)) !! l
                    = Some (Some (mkPoint (bx (newBounds b)) (by_ (newBounds b))),
                            Some (mkDimension (bwidth (newBounds b)) (bheight (newBounds b))))).
    { rewrite Hbs, foldl_app. cbn [foldl].
      pose proof (bounds_loop_geometryOnly pre g) as Hpre.
      set (g1 := foldl _ g pre) in *.
      rewrite (refById_geometryOnly g g1 _ Hpre), Hl.
      rewrite (bounds_loop_keeps_other g post _ l);
        [|eapply geometryOnly_trans; [exact Hpre|apply geometryOnly_applyBounds]|done].
      unfold applyBounds, set_heap. cbn [heap]. rewrite lookup_alter_eq.
      rewrite <- (refById_geometryOnly g g1 _ Hpre) in Hl. unfold refById in Hl.
      destruct (index g1 !! b_elementId b) as [l0|]; [|done]. cbn in Hl.
      destruct (heap g1 !! l0) as [e0|] eqn:He0; [|done]. cbn in Hl.
      injection Hl as ->. rewrite He0. done. }
    destruct (alignments action) as [al|]; [|exact Hloop].
    by rewrite alignment_loop_keeps_bounds. }
  destruct (heap (applyComputed action g) !! l) as [e'|]; [|done].
  cbn in Hgeom. injection Hgeom as Hp Hs. eauto.
Qed.

(** ** The further properties at sample inputs *)

(** X1 on the batch [express], [left-pad]. *)
Lemma resolveNodes_promise_rejection_witness :
  (resolveNodes (npm flaky) nameFilter fifo true [0; 1] packagesWorld).1
  = Reject "Error: 404"
  ∧ last (since packagesWorld
            (after (resolveNodes (npm flaky) nameFilter fifo true [0; 1]) packagesWorld))
    = Some (Settle 1 (Rejected "Error: 404"))
  ∧ List.filter isWrapUp
      (since packagesWorld
         (after (resolveNodes (npm flaky) nameFilter fifo true [0; 1]) packagesWorld)) = [].
Proof.
  apply (resolveNodes_promise_rejection_aborts (npm flaky) nameFilter fifo true [0; 1]
           packagesWorld 1 "Error: 404").
  vm_compute. do 6 (apply elem_of_cons; right). apply elem_of_cons. by left.
Defined.


(** X3 on a mixed batch: [express] is resolved already and is fetched again. *)
Lemma resolveNodes_invokes_visible_witness :
  resolvedOf (graph mixedWorld) 0 = true
  ∧ ((∃ r, ResolveNode 0 r
           ∈ since mixedWorld
               (after (resolveNodes (npm flaky) nameFilter fifo true [0; 1]) mixedWorld))
     ↔ 0 ∈ [0; 1] ∧ hiddenOf (graph mixedWorld) 0 = false).
Proof.
  split; [vm_compute; reflexivity|].
  apply (resolveNodes_invokes_exactly_visible (npm flaky) nameFilter fifo true [0; 1]
           mixedWorld).
  - apply npm_well_behaved.
  - intros m Hm. apply elem_of_cons in Hm as [->|Hm]; [vm_compute; eauto|].
    apply elem_of_cons in Hm as [->|Hm]; [vm_compute; eauto|].
    by apply elem_of_nil in Hm.
  - vm_compute. reflexivity.
Defined.

(** X4 on the resolved chain, with no room for a wave. *)
Lemma resolveGraph_nothing_unresolved_witness :
  (resolveGraph (npm chain) nameFilter fifo true 0 resolvedWorld).1 = Done tt
  ∧ graph (after (resolveGraph (npm chain) nameFilter fifo true 0) resolvedWorld)
    = refresh_graph nameFilter (filterText resolvedWorld) (graph resolvedWorld)
  ∧ since resolvedWorld (after (resolveGraph (npm chain) nameFilter fifo true 0) resolvedWorld)
    = [LoadIndicator true] ++ [Refresh; UpdateModel; Suspend] ++ [LoadIndicator false]
        ++ match visibleChildIds
                   (refresh_graph nameFilter (filterText resolvedWorld) (graph resolvedWorld))
           with
           | [] => []
           | _ => [Dispatch (FitToScreenAction
                     (List.filter
                        (visibleNode (refresh_graph nameFilter (filterText resolvedWorld)
                                        (graph resolvedWorld)))
                        (visibleChildIds
                           (refresh_graph nameFilter (filterText resolvedWorld)
                              (graph resolvedWorld)))) 20 1 true)]
           end.
Proof.
  apply (resolveGraph_nothing_unresolved (npm chain) nameFilter fifo true 0 resolvedWorld).
  vm_compute. reflexivity.
Defined.

(** X5 on the two packages, one of which cannot be fetched. *)
Lemma resolveGraph_promise_rejection_witness :
  (resolveGraph (npm flaky) nameFilter fifo true 5 packagesWorld).1 = Reject "Error: 404"
  ∧ last (since packagesWorld
            (after (resolveGraph (npm flaky) nameFilter fifo true 5) packagesWorld))
    = Some (Settle 1 (Rejected "Error: 404"))
  ∧ List.filter isWrapUp
      (since packagesWorld
         (after (resolveGraph (npm flaky) nameFilter fifo true 5) packagesWorld)) = [].
Proof.
  apply (resolveGraph_promise_rejection_aborts (npm flaky) nameFilter fifo true 5
           packagesWorld 1 "Error: 404").
  vm_compute. do 6 (apply elem_of_cons; right). apply elem_of_cons. by left.
Defined.

(** X6 on the sample graph: the hidden node is fetched. *)
Lemma resolveGraph_invokes_hidden_witness :
  hiddenOf (graph sampleWorld) 0 = true
  ∧ ∃ r, ResolveNode 0 r
         ∈ since sampleWorld (after (resolveGraph (npm chain) nameFilter fifo true 1) sampleWorld).
Proof.
  split; [vm_compute; reflexivity|].
  apply (resolveGraph_invokes_every_unresolved (npm chain) nameFilter fifo true 1 sampleWorld 0).
  - lia.
  - vm_compute. apply elem_of_cons. by left.
Defined.

(** X8 on the sample graph: an edge and an id that is gone. *)
Lemma handleSelect_without_node_witness :
  handleSelect (npm chain) nameFilter fifo true ["edge1"; "gone"] sampleWorld
  = (Done tt, sampleWorld).
Proof.
  apply (handleSelect_without_node (npm chain) nameFilter fifo true ["edge1"; "gone"]
           sampleWorld).
  intros i e Hi Hget.
  apply elem_of_cons in Hi as [->|Hi]; [vm_compute in Hget; by injection Hget as <-|].
  apply elem_of_cons in Hi as [->|Hi]; [vm_compute in Hget; done|].
  by apply elem_of_nil in Hi.
Defined.

(** X9 on the sample graph: the visible node is selected along with the edge. *)
Lemma handleSelect_calls_selected_witness :
  ∃ i e, i ∈ ["nodeA"; "edge1"] ∧ index (graph sampleWorld) !! i = Some 2
         ∧ heap (graph sampleWorld) !! 2 = Some e ∧ type e = "node".
Proof.
  apply (handleSelect_calls_selected_nodes (npm chain) nameFilter fifo true
           ["nodeA"; "edge1"] sampleWorld 2 Pending).
  vm_compute. apply elem_of_cons. right. apply elem_of_cons. by left.
Defined.

(** X10 on a graph that holds a single edge. *)
Lemma handleSelectAll_nothing_witness :
  handleSelectAll (npm chain) nameFilter fifo true listedIndex true edgeWorld
  = (Done tt, edgeWorld).
Proof.
  apply (handleSelectAll_nothing_to_do (npm chain) nameFilter fifo true listedIndex edgeWorld).
  intros l e Hl He. vm_compute in Hl.
  apply elem_of_cons in Hl as [->|Hl]; [|by apply elem_of_nil in Hl].
  vm_compute in He. by injection He as <-.
Defined.

(** X11 on the sample graph: the visible node after [clear]. *)
Lemma clear_unindexes_children_witness :
  index (graph (after clear sampleWorld)) !! "nodeA" = None
  ∧ heap (graph (after clear sampleWorld)) = heap (graph sampleWorld)
  ∧ since (after clear sampleWorld) (after (select ["nodeA"]) (after clear sampleWorld))
    = [Dispatch (SelectAction [])]
  ∧ since (after clear sampleWorld) (after (center ["nodeA"]) (after clear sampleWorld))
    = [Dispatch (FitToScreenAction [] 20 1 true)].
Proof.
  apply (clear_unindexes_children sampleWorld "nodeA").
  vm_compute. do 2 (apply elem_of_cons; right). apply elem_of_cons. by left.
Defined.

(** X15 on the sample graph. *)
Lemma applyComputed_unknown_ids_witness :
  applyComputed goneBounds sampleGraph = sampleGraph.
Proof.
  apply applyComputed_unknown_ids.
  - intros b Hb. apply elem_of_cons in Hb as [->|Hb]; [vm_compute; reflexivity|].
    by apply elem_of_nil in Hb.
  - intros al a [= <-] Ha. apply elem_of_cons in Ha as [->|Ha]; [vm_compute; reflexivity|].
    by apply elem_of_nil in Ha.
Defined.

(** X16 on the sample graph: the second bounds of the visible node win. *)
Lemma applyComputed_last_bounds_witness :
  ∃ e', heap (applyComputed repeatedBounds sampleGraph) !! 2 = Some e'
        ∧ position e' = Some (mkPoint 10 20)
        ∧ size_ e' = Some (mkDimension 80 30).
Proof.
  apply (applyComputed_last_bounds repeatedBounds sampleGraph
           [mkElementAndBounds "nodeA" (mkBounds 1 2 3 4);
            mkElementAndBounds "gone" (mkBounds 0 0 1 1)]
           [mkElementAndBounds "edge1" (mkBounds 5 5 5 5)]
           (mkElementAndBounds "nodeA" (mkBounds 10 20 80 30)) 2).
  - reflexivity.
  - vm_compute. reflexivity.
  - intros b' Hb'. apply elem_of_cons in Hb' as [->|Hb']; [vm_compute; discriminate|].
    by apply elem_of_nil in Hb'.
Defined.

(** ** More on the resolution operations *)

Section MoreResolutionExtras.

Variable gen : Generator.
Variable hide : string → Graph → nat → bool.
Variable sched : World → list nat → nat.
Variable hasLoadIndicator : bool.

(** X17: a run of [resolveGraph] that completes ends with its wrap-up, in
    this order and once each: the filter pass, the commit, the load
    indicator switched off when there is one, and at most one
    fit-to-screen dispatch; nothing of the wrap-up happens while waves are
    under way. *)
Theorem resolveGraph_completed_wraps_up_once (fuel : nat) (w : World) :
  (resolveGraph gen hide sched hasLoadIndicator fuel w).1 = Done tt →
  ∃ fetches fit,
    since w (after (resolveGraph gen hide sched hasLoadIndicator fuel) w)
    = fetches ++ [Refresh; UpdateModel; Suspend]
        ++ (if hasLoadIndicator then [LoadIndicator false] else []) ++ fit
    ∧ List.filter isWrapUp fetches = []
    ∧ (fit = [] ∨ ∃ ids, fit = [Dispatch (FitToScreenAction ids 20 1 true)])
    ∧ List.filter isCommit
        (since w (after (resolveGraph gen hide sched hasLoadIndicator fuel) w))
      = [UpdateModel].
Proof.
  unfold after. rewrite resolveGraph_unfold.
  set (w0 := mkWorld (graph w) (filterText w)
               (trace w ++ if hasLoadIndicator then [LoadIndicator true] else [])).
  destruct (resolveWaves_waves gen sched fuel (unresolvedChildren (graph w)) w0)
    as (evs & Htr & Hw).
  destruct (resolveWaves gen sched fuel (unresolvedChildren (graph w)) w0)
    as [[[]|r|] w1]; cbn [fst snd] in *; [|done|done].
  intros _. rewrite center_run. cbn [snd].
  set (fit := match visibleChildIds (refresh_graph hide (filterText w1) (graph w1)) with
              | [] => []
              | _ => [Dispatch (FitToScreenAction
                        (List.filter
                           (visibleNode (refresh_graph hide (filterText w1) (graph w1)))
                           (visibleChildIds (refresh_graph hide (filterText w1) (graph w1))))
                        20 1 true)]
              end).
  set (fetches := (if hasLoadIndicator then [LoadIndicator true] else []) ++ evs).
  assert (Hfit : fit = [] ∨ ∃ ids', fit = [Dispatch (FitToScreenAction ids' 20 1 true)]).
  { unfold fit. destruct (visibleChildIds _); [by left|right; eauto]. }
  assert (Hf : List.filter isWrapUp fetches = []).
  { unfold fetches. rewrite List.filter_app, (Waves_not_wrap_up _ _ _ Hw).
    by destruct hasLoadIndicator. }
  assert (Hfc : List.filter isCommit fetches = []).
  { apply filter_none. intros e He.
    assert (Hwu : isWrapUp e = false).
    { destruct (isWrapUp e) eqn:Hwu; [|done].
      assert (Hin : e ∈ List.filter isWrapUp fetches)
        by (apply list_elem_of_In, filter_In; split; [by apply list_elem_of_In|done]).
      rewrite Hf in Hin. by apply elem_of_nil in Hin. }
    by destruct e as [| | | | | | | | | | | | |]. }
  assert (Heq : ∀ g' ft,
            since w (mkWorld g' ft
                       ((trace w1 ++ [Refresh; UpdateModel; Suspend]
                           ++ (if hasLoadIndicator then [LoadIndicator false] else []))
                        ++ fit))
            = fetches ++ [Refresh; UpdateModel; Suspend]
                ++ (if hasLoadIndicator then [LoadIndicator false] else []) ++ fit).
  { intros g' ft. apply since_app. cbn [trace]. rewrite Htr. unfold fetches, w0.
    cbn [trace]. by rewrite <- !app_assoc. }
  exists fetches, fit. rewrite Heq. split; [done|]. split; [exact Hf|]. split; [exact Hfit|].
  rewrite !List.filter_app, Hfc.
  destruct hasLoadIndicator, Hfit as [->|[ids' ->]]; reflexivity.
Qed.

(** X19: selecting elements whose nodes are all hidden or resolved already
    costs no fetch: [handleSelect] then does nothing but the one
    fit-to-screen dispatch of [center] on the selected nodes, and leaves
    the graph as it is. *)
Theorem handleSelect_resolved_only_centers (selectedElementsIDs : list string) (w : World) :
  selectedNodes (graph w) selectedElementsIDs ≠ [] →
  (∀ m, m ∈ selectedNodes (graph w) selectedElementsIDs →
        hiddenOf (graph w) m = true ∨ resolvedOf (graph w) m = true) →
  handleSelect gen hide sched hasLoadIndicator selectedElementsIDs w
  = (Done tt,
     mkWorld (graph w) (filterText w)
       (trace w ++ [Dispatch (FitToScreenAction
                      (List.filter (visibleNode (graph w))
                         (map (idOf (graph w))
                            (selectedNodes (graph w) selectedElementsIDs)))
                      20 1 true)])).
Proof.
  intros Hne Hall. unfold handleSelect. run.
  destruct (selectedNodes (graph w) selectedElementsIDs) as [|n nodes] eqn:Hsel; [done|].
  cbn [length Nat.ltb Nat.leb].
  rewrite resolveNodes_short_run, center_run; [done|].
  apply forallb_forall. intros m Hm. apply list_elem_of_In, Hall in Hm.
  apply orb_true_iff. done.
Qed.

End MoreResolutionExtras.

(** X17 on the chain. *)
Lemma resolveGraph_completed_witness :
  ∃ fetches fit,
    since chainWorld (after (resolveGraph (npm chain) nameFilter fifo true 3) chainWorld)
    = fetches ++ [Refresh; UpdateModel; Suspend] ++ [LoadIndicator false] ++ fit
    ∧ List.filter isWrapUp fetches = []
    ∧ (fit = [] ∨ ∃ ids, fit = [Dispatch (FitToScreenAction ids 20 1 true)])
    ∧ List.filter isCommit
        (since chainWorld (after (resolveGraph (npm chain) nameFilter fifo true 3) chainWorld))
      = [UpdateModel].
Proof.
  apply (resolveGraph_completed_wraps_up_once (npm chain) nameFilter fifo true 3 chainWorld).
  vm_compute. reflexivity.
Defined.

(** X19 on the resolved chain: A and C are selected again. *)
Lemma handleSelect_resolved_witness :
  handleSelect (npm chain) nameFilter fifo true ["A"; "C"] resolvedWorld
  = (Done tt,
     mkWorld (graph resolvedWorld) (filterText resolvedWorld)
       (trace resolvedWorld
        ++ [Dispatch (FitToScreenAction
              (List.filter (visibleNode (graph resolvedWorld))
                 (map (idOf (graph resolvedWorld))
                    (selectedNodes (graph resolvedWorld) ["A"; "C"])))
              20 1 true)])).
Proof.
  apply (handleSelect_resolved_only_centers (npm chain) nameFilter fifo true ["A"; "C"]
           resolvedWorld).
  - vm_compute. discriminate.
  - intros m Hm. right. vm_compute in Hm.
    apply elem_of_cons in Hm as [->|Hm]; [vm_compute; reflexivity|].
    apply elem_of_cons in Hm as [->|Hm]; [vm_compute; reflexivity|].
    by apply elem_of_nil in Hm.
Defined.
